(** * The profanity linter: a hierarchical content-policy engine

    A shallow embedding of the lint tool of the go-sdk repository (package
    [main]: [globAnyMatch], [getRules], [discoverRules], [localRules],
    [deserializeRules], [Contains], [NotContains], [Regex], the [Rule]
    methods and the per-file body of the walk), followed by the properties
    of rule resolution, rule caching, glob filtering and rule evaluation.

    Go strings and byte slices are byte sequences: both are [string] here.
    The two Go maps [realizedRules] and [packageRules] are [gmap]s threaded
    through the calls that mutate them. *)

From Stdlib Require Import Ascii String List Bool Arith Lia OrdersEx.
From stdpp Require Import base option list gmap strings sorting.

(** ** Go values *)

(** A Go [error] value, identified with its message. *)
Definition error := string.

(** The result of a Go function returning [(A, error)].  Every call site of
    the program tests [err != nil] before it looks at the value, so the value
    that accompanies a non-nil error is never observed. *)
Inductive result (A : Type) : Type :=
| Ok (a : A)
| Err (e : error).
Arguments Ok {A} a.
Arguments Err {A} e.

(** A computation that either returns normally or panics. *)
Inductive exec (A : Type) : Type :=
| Return (a : A)
| Panic (v : error).
Arguments Return {A} a.
Arguments Panic {A} v.

Definition nonempty (s : string) : bool := 0 <? String.length s.

(** Characters that cannot be written inside a literal. *)
Definition dquote : string := String "034"%char EmptyString.
Definition newline_tab : string := String "010"%char (String "009"%char EmptyString).
Definition escape : string := String "027"%char EmptyString.

(** ** Package [strings] *)

(** [strings.HasPrefix(s, prefix)]. *)
Definition strings_HasPrefix (s prefix : string) : bool := String.prefix prefix s.

(** [strings.Contains(s, substr)]: [substr] occurs at some offset of [s]. *)
Fixpoint strings_Contains (s substr : string) : bool :=
  if String.prefix substr s then true
  else match s with
       | EmptyString => false
       | String _ s' => strings_Contains s' substr
       end.

(** [strings.Split(s, sep)] for a one-byte separator: the pieces of [s]
    between the occurrences of [sep]; [n] occurrences give [n+1] pieces. *)
Fixpoint strings_Split (s : string) (sep : ascii) : list string :=
  match s with
  | EmptyString => [EmptyString]
  | String c s' =>
      if Ascii.eqb c sep then EmptyString :: strings_Split s' sep
      else match strings_Split s' sep with
           | p :: ps => String c p :: ps
           | [] => [String c EmptyString]
           end
  end.

(** [sub] occurs in [s] as a contiguous run of bytes. *)
Definition occurs (sub s : string) : Prop :=
  exists pre post, s = pre +:+ sub +:+ post.

(** ** Terminal colors *)

Module AnsiColor.
Definition t := string.
Definition ColorRed : t := "31m".
Definition ColorGreen : t := "32m".
Definition ColorLightWhite : t := "97m".
Definition ColorReset : t := "0m".
Definition escaped (acc : t) : string := escape +:+ "[" +:+ acc.
Definition Apply (acc : t) (text : string) : string :=
  escaped acc +:+ text +:+ escaped ColorReset.
End AnsiColor.

(** ** Rules *)

Module Rule.
Record t : Type := mk {
  File : string;
  Message : string;
  Contains : string;
  NotContains : string;
  Regex : string;
  Include : string;
  Exclude : string
}.
End Rule.
Abbreviation Rule := Rule.t.

(** [RuleFunc func([]byte) error]: [None] is the nil error. *)
Definition RuleFunc : Type := string -> option error.

(** ** The runtime the program calls into

    The standard-library and operating-system services whose results the
    program only passes along.  The file system is the one the scan sees;
    it does not change during a scan. *)
Class Runtime : Type := {
  (** [filepath.Match(pattern, name)] *)
  filepath_Match : string -> string -> result bool;
  (** [filepath.Base(path)], [filepath.Dir(path)], [filepath.Join(a, b)] *)
  filepath_Base : string -> string;
  filepath_Dir : string -> string;
  filepath_Join : string -> string -> string;
  (** [strings.TrimSpace(s)] *)
  strings_TrimSpace : string -> string;
  (** [os.Stat(path)]: [true] when the returned error is nil *)
  os_Stat : string -> bool;
  (** [ioutil.ReadFile(path)] *)
  ioutil_ReadFile : string -> result string;
  (** [yaml.Unmarshal(contents, &fileRules)] into a [[]Rule] *)
  yaml_Unmarshal : string -> result (list Rule);
  (** [regexp.Compile(expr)]; a compiled expression is represented by its
      [Match] method on byte slices *)
  regexp_Compile : string -> result (string -> bool);
  (** [strconv.CanBackquote(s)], [strconv.Quote(s)] *)
  strconv_CanBackquote : string -> bool;
  strconv_Quote : string -> string;
  (** the command-line flags [-rules], [-include], [-exclude] *)
  rulesFile : string;
  include : string;
  exclude : string
}.

(** [DefaultProfanityFile] *)
Definition DefaultProfanityFile : string := "PROFANITY".

(** The iteration order of one [range] over a Go map.  Go leaves it
    unspecified: any enumeration of the entries is possible, and two ranges
    over the same map may differ. *)
Definition RangeOrder : Type :=
  gmap string (list Rule) -> list (string * list Rule).

Definition range_ok (ord : RangeOrder) : Prop :=
  forall m, ord m ≡ₚ map_to_list m.

Section Profanity.
Context {RT : Runtime}.

(** ** Glob filters *)

(** The body of the loop of [globAnyMatch] over the parts of the filter. *)
Fixpoint globAnyMatch_parts (parts : list string) (file : string) : result bool :=
  match parts with
  | [] => Ok false
  | part :: parts' =>
      match filepath_Match (strings_TrimSpace part) file with
      | Err e => Err e
      | Ok true => Ok true
      | Ok false =>
          match filepath_Match (strings_TrimSpace part) (filepath_Base file) with
          | Err e => Err e
          | Ok true => Ok true
          | Ok false => globAnyMatch_parts parts' file
          end
      end
  end.

(** [globAnyMatch] tests if a file matches a csv of glob filters. *)
Definition globAnyMatch (filter file : string) : result bool :=
  globAnyMatch_parts (strings_Split filter ","%char) file.

(** ** Rule checks *)

Definition Contains (value : string) : RuleFunc :=
  fun contents =>
    if strings_Contains contents value
    then Some ("contains: " +:+ dquote +:+ value +:+ dquote)
    else None.

Definition NotContains (value : string) : RuleFunc :=
  fun contents =>
    if negb (strings_Contains contents value)
    then Some ("not contains: " +:+ dquote +:+ value +:+ dquote)
    else None.

(** [quote] of package [regexp]: the expression between back quotes when
    it can be written so, double-quoted and escaped otherwise. *)
Definition regexp_quote (s : string) : string :=
  if strconv_CanBackquote s then "`" +:+ s +:+ "`" else strconv_Quote s.

(** The value [regexp.MustCompile] panics with when the expression does
    not compile with error [e]. *)
Definition compilePanic (expr : string) (e : error) : string :=
  "regexp: Compile(" +:+ regexp_quote expr +:+ "): " +:+ e.

(** [regexp.MustCompile] *)
Definition regexp_MustCompile (expr : string) : exec (string -> bool) :=
  match regexp_Compile expr with
  | Ok regex => Return regex
  | Err e => Panic (compilePanic expr e)
  end.

Definition Regex (expr : string) : exec RuleFunc :=
  match regexp_MustCompile expr with
  | Panic v => Panic v
  | Return regex =>
      Return (fun contents =>
                if regex contents
                then Some ("regexp match: " +:+ dquote +:+ expr +:+ dquote)
                else None)
  end.

(** [Rule.ShouldInclude] *)
Definition ShouldInclude (r : Rule) (file : string) : result bool :=
  if String.length (Rule.Include r) =? 0 then Ok true
  else globAnyMatch (Rule.Include r) file.

(** [Rule.ShouldExclude] *)
Definition ShouldExclude (r : Rule) (file : string) : result bool :=
  if String.length (Rule.Exclude r) =? 0 then Ok false
  else globAnyMatch (Rule.Exclude r) file.

(** [Rule.Apply] *)
Definition Apply (r : Rule) (contents : string) : exec (option error) :=
  if nonempty (Rule.Contains r) then Return (Contains (Rule.Contains r) contents)
  else if nonempty (Rule.NotContains r) then Return (NotContains (Rule.NotContains r) contents)
  else if nonempty (Rule.Regex r) then
    match Regex (Rule.Regex r) with
    | Panic v => Panic v
    | Return f => Return (f contents)
    end
  else Return (Some "no rule set").

(** ** Evaluation of the resolved rules on one file *)

(** The error the walk function builds when [rule.Apply] fails with [err]. *)
Definition violation (file : string) (err : error) (rule : Rule) : error :=
  newline_tab +:+ AnsiColor.Apply AnsiColor.ColorLightWhite file +:+ " "
    +:+ AnsiColor.Apply AnsiColor.ColorRed "failed" +:+ ": " +:+ err
  +:+ newline_tab +:+ AnsiColor.Apply AnsiColor.ColorLightWhite "message"
    +:+ ": " +:+ Rule.Message rule
  +:+ newline_tab +:+ AnsiColor.Apply AnsiColor.ColorLightWhite "rules file"
    +:+ ": " +:+ Rule.File rule
  +:+ newline_tab +:+ AnsiColor.Apply AnsiColor.ColorLightWhite "include"
    +:+ ": " +:+ Rule.Include rule
  +:+ newline_tab +:+ AnsiColor.Apply AnsiColor.ColorLightWhite "exclude"
    +:+ ": " +:+ Rule.Exclude rule.

(** The loop [for _, rule := range rules] of the walk function.
    [Return None] is falling out of the loop, [Return (Some e)] is
    [return e] from inside it. *)
Fixpoint Evaluate (rules : list Rule) (file contents : string)
  : exec (option error) :=
  match rules with
  | [] => Return None
  | rule :: rules' =>
      match ShouldInclude rule file with
      | Err e => Return (Some e)
      | Ok false => Evaluate rules' file contents
      | Ok true =>
          match ShouldExclude rule file with
          | Err e => Return (Some e)
          | Ok true => Evaluate rules' file contents
          | Ok false =>
              match Apply rule contents with
              | Panic v => Panic v
              | Return (Some err) => Return (Some (violation file err rule))
              | Return None => Evaluate rules' file contents
              end
          end
      end
  end.

(** ** Loading and resolving rules *)

(** [rule := fileRule; rule.File = path] *)
Definition withFile (path : string) (fileRule : Rule) : Rule :=
  Rule.mk path (Rule.Message fileRule) (Rule.Contains fileRule)
    (Rule.NotContains fileRule) (Rule.Regex fileRule)
    (Rule.Include fileRule) (Rule.Exclude fileRule).

(** [deserializeRules]: read and parse a rules file and stamp every rule
    with the path of the file it came from. *)
Definition deserializeRules (path : string) : result (list Rule) :=
  match ioutil_ReadFile path with
  | Err e => Err e
  | Ok contents =>
      match yaml_Unmarshal contents with
      | Err e => Err e
      | Ok fileRules => Ok (map (withFile path) fileRules)
      end
  end.

(** The two maps [main] allocates and passes to [getRules], which mutates
    them in place.  [loaded] is a ghost log, never read by the program: the
    directories [localRules] was entered with, most recent first. *)
Record State : Type := mkState {
  realizedRules : gmap string (list Rule);
  packageRules : gmap string (list Rule);
  loaded : list string
}.

Definition initial : State := mkState ∅ ∅ [].

(** [localRules]: the rules of the rules file of directory [path], also
    registered in [packageRules]; no rules when the file cannot be stat'ed. *)
Definition localRules (path : string) (st : State) : result (list Rule) * State :=
  let st := mkState (realizedRules st) (packageRules st) (path :: loaded st) in
  let profanityPath := filepath_Join path rulesFile in
  if negb (os_Stat profanityPath) then (Ok [], st)
  else
    match deserializeRules profanityPath with
    | Err e => (Err e, st)
    | Ok rules =>
        (Ok rules,
         mkState (realizedRules st) (<[path := rules]> (packageRules st)) (loaded st))
    end.

(** One iteration of [for key, inheritedRules := range packageRules].
    Every slice stored in [packageRules] comes from [make] in
    [deserializeRules] and has no spare capacity, so [append] copies and
    never writes into the stored slice. *)
Definition inherit (path : string) (rules : list Rule)
    (entry : string * list Rule) : list Rule :=
  let '(key, inheritedRules) := entry in
  if strings_HasPrefix path key && negb (String.eqb key path)
  then inheritedRules ++ rules
  else rules.

(** [discoverRules]; [ord] is the order in which the [range] statement
    enumerates [packageRules]. *)
Definition discoverRules (ord : RangeOrder) (path : string) (st : State)
  : result (list Rule) * State :=
  match localRules path st with
  | (Err e, st') => (Err e, st')
  | (Ok rules, st') =>
      let rules := fold_left (inherit path) (ord (packageRules st')) rules in
      let rules :=
        match packageRules st' !! "." with
        | Some rootRules =>
            if negb (String.eqb path ".") then rootRules ++ rules else rules
        | None => rules
        end in
      (Ok rules, st')
  end.

(** [getRules] *)
Definition getRules (ord : RangeOrder) (path : string) (st : State)
  : result (list Rule) * State :=
  match realizedRules st !! path with
  | Some rules => (Ok rules, st)
  | None =>
      match discoverRules ord path st with
      | (Err e, st') => (Err e, st')
      | (Ok rules, st') =>
          (Ok rules,
           mkState (<[path := rules]> (realizedRules st')) (packageRules st') (loaded st'))
      end
  end.

(** ** The walk *)

(** The function [main] hands to [filepath.Walk], on an entry that is a
    regular file and was read without error (for a directory it returns
    before any rule is looked at).  Verbose output is not modelled.
    [Return None] lets the walk continue, [Return (Some e)] stops it. *)
Definition walkFn (ord : RangeOrder) (file : string) (st : State)
  : exec (option error) * State :=
  let fileBase := filepath_Base file in
  match (if nonempty include then globAnyMatch include file else Ok true) with
  | Err e => (Return (Some e), st)
  | Ok false => (Return None, st)
  | Ok true =>
  match (if nonempty exclude then globAnyMatch exclude file else Ok false) with
  | Err e => (Return (Some e), st)
  | Ok true => (Return None, st)
  | Ok false =>
  match filepath_Match DefaultProfanityFile fileBase with
  | Err e => (Return (Some e), st)
  | Ok true => (Return None, st)
  | Ok false =>
  match getRules ord (filepath_Dir file) st with
  | (Err e, st') => (Return (Some e), st')
  | (Ok rules, st') =>
  match ioutil_ReadFile file with
  | Err e => (Return (Some e), st')
  | Ok contents => (Evaluate rules file contents, st')
  end end end end end.

(** [filepath.Walk] over the regular files of the tree, in the order it
    visits them, each with the order its map range takes: the walk stops at
    the first error the function returns. *)
Fixpoint walk (visits : list (RangeOrder * string)) (st : State)
  : exec (option error) * State :=
  match visits with
  | [] => (Return None, st)
  | (ord, file) :: visits' =>
      match walkFn ord file st with
      | (Return None, st') => walk visits' st'
      | stop => stop
      end
  end.

(** [main]: the exit status of the process (a panic exits with status 2). *)
Definition main (visits : list (RangeOrder * string)) : nat :=
  match fst (walk visits initial) with
  | Return None => 0
  | Return (Some walkErr) => 1
  | Panic v => 2
  end.

(** ** Vocabulary of the properties *)

(** The rule reports a violation on these contents. *)
Definition violates (r : Rule) (contents : string) : Prop :=
  exists err, Apply r contents = Return (Some err).

(** The rule [r] with its [Regex] field cleared. *)
Definition withoutRegex (r : Rule) : Rule :=
  Rule.mk (Rule.File r) (Rule.Message r) (Rule.Contains r) (Rule.NotContains r)
    EmptyString (Rule.Include r) (Rule.Exclude r).

(** Both attempts of one part of a filter, on the path and on its base
    name, report a mismatch without error. *)
Definition cleanMiss (file part : string) : Prop :=
  filepath_Match (strings_TrimSpace part) file = Ok false /\
  filepath_Match (strings_TrimSpace part) (filepath_Base file) = Ok false.

(** The part matches at the attempt [globAnyMatch] reaches first. *)
Definition hits (file part : string) : Prop :=
  filepath_Match (strings_TrimSpace part) file = Ok true \/
  (filepath_Match (strings_TrimSpace part) file = Ok false /\
   filepath_Match (strings_TrimSpace part) (filepath_Base file) = Ok true).

(** The part is reported malformed at the attempt reached first. *)
Definition breaks (file part : string) (e : error) : Prop :=
  filepath_Match (strings_TrimSpace part) file = Err e \/
  (filepath_Match (strings_TrimSpace part) file = Ok false /\
   filepath_Match (strings_TrimSpace part) (filepath_Base file) = Err e).

(** The pattern of the part matches the full path or the base name. *)
Definition matchesEither (file part : string) : Prop :=
  filepath_Match (strings_TrimSpace part) file = Ok true \/
  filepath_Match (strings_TrimSpace part) (filepath_Base file) = Ok true.

(** The pattern is malformed: [filepath.Match] reports it so on some
    name. *)
Definition malformedGlob (pattern : string) : Prop :=
  exists name e, filepath_Match pattern name = Err e.

(** Neither attempt of the part reports a malformed pattern. *)
Definition wellFormed (file part : string) : Prop :=
  (exists b, filepath_Match (strings_TrimSpace part) file = Ok b) /\
  (exists b, filepath_Match (strings_TrimSpace part) (filepath_Base file) = Ok b).

(** The rule is passed over for the file: its include filter is set and
    does not match, or its exclude filter is set and matches. *)
Definition skipped (r : Rule) (file : string) : Prop :=
  (nonempty (Rule.Include r) = true /\
   globAnyMatch (Rule.Include r) file = Ok false) \/
  (ShouldInclude r file = Ok true /\
   nonempty (Rule.Exclude r) = true /\
   globAnyMatch (Rule.Exclude r) file = Ok true).

(** The rule gets applied to the file. *)
Definition considered (r : Rule) (file : string) : Prop :=
  ShouldInclude r file = Ok true /\ ShouldExclude r file = Ok false.

(** The loop goes past the rule: it is skipped, or applied without a
    violation. *)
Definition harmless (file contents : string) (r : Rule) : Prop :=
  skipped r file \/ (considered r file /\ Apply r contents = Return None).

(** Every directory in the log has an entry in the cache, and no directory
    is logged twice. *)
Definition cache_inv (st : State) : Prop :=
  NoDup (loaded st) /\
  forall d, d ∈ loaded st -> realizedRules st !! d <> None.

(** The file gets past the global filters of the walk and is not a rules
    file itself. *)
Definition admitted (file : string) : Prop :=
  (if nonempty include then globAnyMatch include file else Ok true) = Ok true /\
  (if nonempty exclude then globAnyMatch exclude file else Ok false) = Ok false /\
  filepath_Match DefaultProfanityFile (filepath_Base file) = Ok false.

End Profanity.

(** ** A concrete runtime

    A runtime to run the program on: models of [strings.TrimSpace], of
    package [path/filepath] on Unix and of the quoting of [strconv], for
    ASCII strings (every byte is one rune) and cleaned, slash-separated
    relative paths such as a walk from ["."] produces, and a small file
    tree. *)
Module Unix.

Definition Separator : ascii := "/"%char.
Definition ErrBadPattern : error := "syntax error in pattern".
Definition isEmpty (s : string) : bool := String.eqb s EmptyString.

Definition isSpace (c : ascii) : bool :=
  let n := nat_of_ascii c in ((9 <=? n) && (n <=? 13)) || (n =? 32).

Fixpoint trimLeft (s : string) : string :=
  match s with
  | String c s' => if isSpace c then trimLeft s' else s
  | EmptyString => EmptyString
  end.

Fixpoint trimRight (s : string) : string :=
  match s with
  | String c s' =>
      match trimRight s' with
      | EmptyString => if isSpace c then EmptyString else String c EmptyString
      | t => String c t
      end
  | EmptyString => EmptyString
  end.

Definition TrimSpace (s : string) : string := trimRight (trimLeft s).

Fixpoint stripSlashes (s : string) : string :=
  match s with
  | String c s' =>
      match stripSlashes s' with
      | EmptyString =>
          if Ascii.eqb c Separator then EmptyString else String c EmptyString
      | t => String c t
      end
  | EmptyString => EmptyString
  end.

(** [filepath.Base]: the last element of the path. *)
Definition Base (path : string) : string :=
  if isEmpty path then "."
  else
    let elem :=
      List.last (strings_Split (stripSlashes path) Separator) EmptyString in
    if isEmpty elem then "/" else elem.

(** The path up to and including its last separator. *)
Fixpoint uptoLastSlash (path : string) : string :=
  match path with
  | String c path' =>
      if strings_Contains path "/" then String c (uptoLastSlash path')
      else EmptyString
  | EmptyString => EmptyString
  end.

(** [filepath.Dir] on a cleaned path: all but the last element. *)
Definition Dir (path : string) : string :=
  let dir := stripSlashes (uptoLastSlash path) in
  if isEmpty dir then (if strings_Contains path "/" then "/" else ".")
  else dir.

(** [filepath.Join] of a cleaned directory and a file name. *)
Definition Join (dir name : string) : string :=
  if isEmpty dir || String.eqb dir "." then name
  else if String.eqb dir "/" then dir +:+ name
  else dir +:+ "/" +:+ name.

(** *** [filepath.Match] *)

(** [scanChunk] after the leading stars: the chunk up to the next star
    outside a bracket expression, and the rest of the pattern. *)
Fixpoint scan (pattern : string) (inrange : bool) : string * string :=
  match pattern with
  | EmptyString => (EmptyString, EmptyString)
  | String c p' =>
      if Ascii.eqb c "\"%char then
        match p' with
        | EmptyString => (String c EmptyString, EmptyString)
        | String d p'' =>
            let '(chunk, rest) := scan p'' inrange in
            (String c (String d chunk), rest)
        end
      else if Ascii.eqb c "*"%char && negb inrange then (EmptyString, pattern)
      else
        let inrange' :=
          if Ascii.eqb c "["%char then true
          else if Ascii.eqb c "]"%char then false
          else inrange in
        let '(chunk, rest) := scan p' inrange' in
        (String c chunk, rest)
  end.

Fixpoint dropStars (pattern : string) : string :=
  match pattern with
  | String c p' => if Ascii.eqb c "*"%char then dropStars p' else pattern
  | EmptyString => EmptyString
  end.

Definition scanChunk (pattern : string) : bool * string * string :=
  let star :=
    match pattern with
    | String c _ => Ascii.eqb c "*"%char
    | EmptyString => false
    end in
  let '(chunk, rest) := scan (dropStars pattern) false in
  (star, chunk, rest).

(** [getEsc]: one possibly escaped character of a bracket expression. *)
Definition getEsc (chunk : string) : result (ascii * string) :=
  match chunk with
  | EmptyString => Err ErrBadPattern
  | String c chunk' =>
      if Ascii.eqb c "-"%char || Ascii.eqb c "]"%char then Err ErrBadPattern
      else
        match (if Ascii.eqb c "\"%char then chunk' else chunk) with
        | EmptyString => Err ErrBadPattern
        | String r nchunk =>
            if isEmpty nchunk then Err ErrBadPattern else Ok (r, nchunk)
        end
  end.

Definition inRange (lo r hi : ascii) : bool :=
  (nat_of_ascii lo <=? nat_of_ascii r) && (nat_of_ascii r <=? nat_of_ascii hi).

(** The ranges of a bracket expression, up to its closing bracket. *)
Fixpoint parseRanges (fuel : nat) (chunk : string) (r : ascii)
    (matched : bool) (nrange : nat) : result (bool * string) :=
  match fuel with
  | 0 => Err ErrBadPattern
  | S fuel' =>
      let close :=
        match chunk with
        | String c chunk' =>
            if Ascii.eqb c "]"%char && (0 <? nrange) then Some chunk' else None
        | EmptyString => None
        end in
      match close with
      | Some chunk' => Ok (matched, chunk')
      | None =>
          match getEsc chunk with
          | Err e => Err e
          | Ok (lo, chunk1) =>
              let upper :=
                match chunk1 with
                | String c rest =>
                    if Ascii.eqb c "-"%char then getEsc rest else Ok (lo, chunk1)
                | EmptyString => Ok (lo, chunk1)
                end in
              match upper with
              | Err e => Err e
              | Ok (hi, chunk2) =>
                  parseRanges fuel' chunk2 r (matched || inRange lo r hi) (S nrange)
              end
          end
      end
  end.

(** [matchChunk]: [Ok (Some rest)] when the chunk matches a prefix of [s]
    and leaves [rest]; once the match has failed the chunk is still read
    to its end, to report a malformed pattern. *)
Fixpoint matchChunk_from (fuel : nat) (failed : bool) (chunk s : string)
  : result (option string) :=
  match fuel with
  | 0 => Err ErrBadPattern
  | S fuel' =>
      match chunk with
      | EmptyString => if failed then Ok None else Ok (Some s)
      | String c chunk' =>
          let failed := failed || isEmpty s in
          if Ascii.eqb c "["%char then
            let '(r, s1) :=
              match s with
              | String r s' => if failed then (zero, s) else (r, s')
              | EmptyString => (zero, s)
              end in
            let '(negated, chunk1) :=
              match chunk' with
              | String n chunk'' =>
                  if Ascii.eqb n "^"%char then (true, chunk'') else (false, chunk')
              | EmptyString => (false, chunk')
              end in
            match parseRanges fuel' chunk1 r false 0 with
            | Err e => Err e
            | Ok (matched, chunk2) =>
                matchChunk_from fuel' (failed || Bool.eqb matched negated) chunk2 s1
            end
          else if Ascii.eqb c "?"%char then
            match s with
            | String d s' =>
                if failed then matchChunk_from fuel' failed chunk' s
                else matchChunk_from fuel' (Ascii.eqb d Separator) chunk' s'
            | EmptyString => matchChunk_from fuel' failed chunk' s
            end
          else
            match (if Ascii.eqb c "\"%char then chunk' else chunk) with
            | EmptyString => Err ErrBadPattern
            | String c0 chunk1 =>
                match s with
                | String d s' =>
                    if failed then matchChunk_from fuel' failed chunk1 s
                    else matchChunk_from fuel' (negb (Ascii.eqb c0 d)) chunk1 s'
                | EmptyString => matchChunk_from fuel' failed chunk1 s
                end
            end
      end
  end.

Definition matchChunk (chunk s : string) : result (option string) :=
  matchChunk_from (S (String.length chunk)) false chunk s.

(** The loop of [Match] that retries a chunk after a star, skipping one
    more byte of the name each time, never a separator. *)
Fixpoint starSearch (chunk : string) (lastChunk : bool) (name : string)
  : result (option string) :=
  match name with
  | EmptyString => Ok None
  | String c name' =>
      if Ascii.eqb c Separator then Ok None
      else
        match matchChunk chunk name' with
        | Err e => Err e
        | Ok (Some t) =>
            if lastChunk && negb (isEmpty t) then starSearch chunk lastChunk name'
            else Ok (Some t)
        | Ok None => starSearch chunk lastChunk name'
        end
  end.

(** The loop of [Match] over the chunks of the pattern.  A chunk that
    matches neither at the current position nor after a star ends the
    match with [(false, nil)]: the chunks after it are not looked at. *)
Fixpoint Match_from (fuel : nat) (pattern name : string) : result bool :=
  match fuel with
  | 0 => Err ErrBadPattern
  | S fuel' =>
      if isEmpty pattern then Ok (isEmpty name)
      else
        let '(star, chunk, rest) := scanChunk pattern in
        if star && isEmpty chunk then Ok (negb (strings_Contains name "/"))
        else
          let retry :=
            if star then starSearch chunk (isEmpty rest) name else Ok None in
          let mismatch :=
            match retry with
            | Err e => Err e
            | Ok (Some t) => Match_from fuel' rest t
            | Ok None => Ok false
            end in
          match matchChunk chunk name with
          | Err e => Err e
          | Ok (Some t) =>
              if isEmpty t || negb (isEmpty rest) then Match_from fuel' rest t
              else mismatch
          | Ok None => mismatch
          end
  end.

(** [filepath.Match(pattern, name)] *)
Definition Match (pattern name : string) : result bool :=
  Match_from (S (String.length pattern)) pattern name.

(** *** [strconv] quoting *)

(** [strconv.CanBackquote]: no back quote, no delete and no control
    character other than tab. *)
Fixpoint CanBackquote (s : string) : bool :=
  match s with
  | EmptyString => true
  | String c s' =>
      let n := nat_of_ascii c in
      if ((n <? 32) && negb (n =? 9)) || (n =? 96) || (n =? 127) then false
      else CanBackquote s'
  end.

Definition lowerhex (n : nat) : ascii :=
  match get n "0123456789abcdef" with
  | Some c => c
  | None => "0"%char
  end.

(** What [strconv.Quote] writes for one character. *)
Definition escapedRune (c : ascii) : string :=
  let n := nat_of_ascii c in
  if (n =? 34) || (n =? 92) then String "\"%char (String c EmptyString)
  else if (32 <=? n) && (n <? 127) then String c EmptyString
  else if n =? 7 then "\a"
  else if n =? 8 then "\b"
  else if n =? 12 then "\f"
  else if n =? 10 then "\n"
  else if n =? 13 then "\r"
  else if n =? 9 then "\t"
  else if n =? 11 then "\v"
  else "\x" +:+ String (lowerhex (n / 16)) (String (lowerhex (n mod 16)) EmptyString).

Fixpoint escapedRunes (s : string) : string :=
  match s with
  | EmptyString => EmptyString
  | String c s' => escapedRune c +:+ escapedRunes s'
  end.

(** [strconv.Quote] *)
Definition Quote (s : string) : string := dquote +:+ escapedRunes s +:+ dquote.

End Unix.

(** A small tree, its files in the order a walk from the root visits
    them:
<<
    PROFANITY          contains TODO, message "no TODOs"
    docs/x.go          (mentions TODO)
    foo/PROFANITY      notContains LICENSE, include *.go
    foo/a.go           (has a LICENSE line)
    foo/readme.md
    foobar/b.go        (has a LICENSE line)
    main.go
    pkg/y.go           (mentions TODO)
    vendor/PROFANITY   (not valid yaml)
    vendor/c.go
>>
    The yaml parser is a table on the contents of the rules files of this
    tree and of the trees after it; the regular-expression engine knows
    literal expressions only. *)
Module Demo.

Definition check (message contains notContains regex include exclude : string)
  : Rule :=
  Rule.mk EmptyString message contains notContains regex include exclude.

Definition noTodo : Rule :=
  check "no TODOs" "TODO" EmptyString EmptyString EmptyString EmptyString.
Definition needsLicense : Rule :=
  check EmptyString EmptyString "LICENSE" EmptyString "*.go" EmptyString.

(** Rules that are in no rules file of the tree: one with no check, one
    on another word, one whose expression does not compile, and one with
    both a literal and such an expression. *)
Definition messageOnly : Rule :=
  check "empty" EmptyString EmptyString EmptyString EmptyString EmptyString.
Definition noFixme : Rule :=
  check EmptyString "FIXME" EmptyString EmptyString EmptyString EmptyString.
Definition badRegex : Rule :=
  check EmptyString EmptyString EmptyString "(" EmptyString EmptyString.
Definition todoAndBadRegex : Rule :=
  check EmptyString "TODO" EmptyString "(" EmptyString EmptyString.

(** A rule whose include filter has a bracket that is never closed. *)
Definition todoBehindBadGlob : Rule :=
  check EmptyString "TODO" EmptyString EmptyString "z*[" EmptyString.

Definition files : list (string * string) :=
  [ ("PROFANITY", "- contains: TODO");
    ("docs/x.go", "package docs // TODO: write me");
    ("foo/PROFANITY", "- notContains: LICENSE");
    ("foo/a.go", "// LICENSE: MIT");
    ("foo/readme.md", "about foo");
    ("foobar/b.go", "// LICENSE: MIT");
    ("main.go", "package main");
    ("pkg/y.go", "package pkg // TODO: tests");
    ("vendor/PROFANITY", "{");
    ("vendor/c.go", "package c") ].

Fixpoint find (path : string) (fs : list (string * string)) : option string :=
  match fs with
  | [] => None
  | (name, contents) :: fs' =>
      if String.eqb name path then Some contents else find path fs'
  end.

Definition Stat (path : string) : bool :=
  match find path files with Some _ => true | None => false end.

Definition ReadFile (path : string) : result string :=
  match find path files with
  | Some contents => Ok contents
  | None => Err ("open " +:+ path +:+ ": no such file or directory")
  end.

Definition Unmarshal (contents : string) : result (list Rule) :=
  if String.eqb contents "- contains: TODO" then Ok [noTodo]
  else if String.eqb contents "- notContains: LICENSE" then Ok [needsLicense]
  else if String.eqb contents "- {contains: TODO, include: 'z*['}"
  then Ok [todoBehindBadGlob]
  else Err "yaml: did not find expected node content".

Definition Compile (expr : string) : result (string -> bool) :=
  if strings_Contains expr "("
  then Err ("error parsing regexp: missing closing ): `" +:+ expr +:+ "`")
  else Ok (fun contents => strings_Contains contents expr).

Definition runtime : Runtime := {|
  filepath_Match := Unix.Match;
  filepath_Base := Unix.Base;
  filepath_Dir := Unix.Dir;
  filepath_Join := Unix.Join;
  strings_TrimSpace := Unix.TrimSpace;
  os_Stat := Stat;
  ioutil_ReadFile := ReadFile;
  yaml_Unmarshal := Unmarshal;
  regexp_Compile := Compile;
  strconv_CanBackquote := Unix.CanBackquote;
  strconv_Quote := Unix.Quote;
  rulesFile := DefaultProfanityFile;
  include := EmptyString;
  exclude := EmptyString
|}.

(** A map range in the order of [map_to_list], and one in the opposite
    order. *)
Definition ascending : RangeOrder := map_to_list.
Definition descending : RangeOrder := fun m => rev (map_to_list m).

(** The rules files as [deserializeRules] returns them. *)
Definition rootRules : list Rule :=
  [Rule.mk "PROFANITY" "no TODOs" "TODO" EmptyString EmptyString EmptyString
     EmptyString].
Definition fooRules : list Rule :=
  [Rule.mk "foo/PROFANITY" EmptyString EmptyString "LICENSE" EmptyString "*.go"
     EmptyString].

(** Where [localRules] looks for the rules file of a directory. *)
Definition rulesPath (dir : string) : string :=
  @filepath_Join runtime dir (@rulesFile runtime).

(** The walk of the tree, every map range ascending. *)
Definition visits : list (RangeOrder * string) :=
  map (fun '(name, _) => (ascending, name)) files.

(** The state of the walk once it is through [docs], through [foo], and
    through [main.go], the one file of the root directory other than its
    rules file. *)
Definition afterDocs : State := snd (walk (RT := runtime) (take 2 visits) initial).
Definition afterFoo : State := snd (walk (RT := runtime) (take 5 visits) initial).
Definition afterRoot : State := snd (walk (RT := runtime) (take 7 visits) initial).

(** The state once [foo] is looked up in [afterDocs], and after the two
    files the walk visits next. *)
Definition afterFoobar : State :=
  snd (walk (RT := runtime) (take 2 (drop 4 visits))
         (snd (getRules (RT := runtime) ascending "foo" afterDocs))).

End Demo.

(** A tree without rules files:
<<
    docs/x.go          (mentions TODO)
    foo/a.go
    main.go
    pkg/y.go           (mentions TODO)
>> *)
Module Bare.

Definition files : list (string * string) :=
  [ ("docs/x.go", "package docs // TODO: write me");
    ("foo/a.go", "// LICENSE: MIT");
    ("main.go", "package main");
    ("pkg/y.go", "package pkg // TODO: tests") ].

Definition Stat (path : string) : bool :=
  match Demo.find path files with Some _ => true | None => false end.

Definition ReadFile (path : string) : result string :=
  match Demo.find path files with
  | Some contents => Ok contents
  | None => Err ("open " +:+ path +:+ ": no such file or directory")
  end.

Definition runtime : Runtime := {|
  filepath_Match := Unix.Match;
  filepath_Base := Unix.Base;
  filepath_Dir := Unix.Dir;
  filepath_Join := Unix.Join;
  strings_TrimSpace := Unix.TrimSpace;
  os_Stat := Stat;
  ioutil_ReadFile := ReadFile;
  yaml_Unmarshal := Demo.Unmarshal;
  regexp_Compile := Demo.Compile;
  strconv_CanBackquote := Unix.CanBackquote;
  strconv_Quote := Unix.Quote;
  rulesFile := DefaultProfanityFile;
  include := EmptyString;
  exclude := EmptyString
|}.

Definition visits : list (RangeOrder * string) :=
  [(Demo.ascending, "docs/x.go"); (Demo.descending, "foo/a.go");
   (Demo.ascending, "main.go"); (Demo.ascending, "pkg/y.go")].

End Bare.

(** Two sibling directories with a rules file each, the name of the first
    a prefix of the name of the second:
<<
    foo/PROFANITY      notContains LICENSE, include *.go
    foo/a.go           (has a LICENSE line)
    foobar/PROFANITY   contains TODO, message "no TODOs"
    foobar/b.go        (has a LICENSE line)
>> *)
Module Siblings.

Definition files : list (string * string) :=
  [ ("foo/PROFANITY", "- notContains: LICENSE");
    ("foo/a.go", "// LICENSE: MIT");
    ("foobar/PROFANITY", "- contains: TODO");
    ("foobar/b.go", "// LICENSE: MIT") ].

Definition Stat (path : string) : bool :=
  match Demo.find path files with Some _ => true | None => false end.

Definition ReadFile (path : string) : result string :=
  match Demo.find path files with
  | Some contents => Ok contents
  | None => Err ("open " +:+ path +:+ ": no such file or directory")
  end.

Definition runtime : Runtime := {|
  filepath_Match := Unix.Match;
  filepath_Base := Unix.Base;
  filepath_Dir := Unix.Dir;
  filepath_Join := Unix.Join;
  strings_TrimSpace := Unix.TrimSpace;
  os_Stat := Stat;
  ioutil_ReadFile := ReadFile;
  yaml_Unmarshal := Demo.Unmarshal;
  regexp_Compile := Demo.Compile;
  strconv_CanBackquote := Unix.CanBackquote;
  strconv_Quote := Unix.Quote;
  rulesFile := DefaultProfanityFile;
  include := EmptyString;
  exclude := EmptyString
|}.

(** The rules file of [foobar] as [deserializeRules] returns it. *)
Definition foobarRules : list Rule :=
  [Rule.mk "foobar/PROFANITY" "no TODOs" "TODO" EmptyString EmptyString
     EmptyString EmptyString].

Definition visits : list (RangeOrder * string) :=
  map (fun '(name, _) => (Demo.descending, name)) files.

(** The state of the walk once it is through [foo]. *)
Definition afterFoo : State := snd (walk (RT := runtime) (take 2 visits) initial).

End Siblings.

(** A tree whose only rule has a malformed include filter:
<<
    PROFANITY          contains TODO, include z*[
    main.go            (mentions TODO)
>> *)
Module Silent.

Definition files : list (string * string) :=
  [ ("PROFANITY", "- {contains: TODO, include: 'z*['}");
    ("main.go", "package main // TODO: flags") ].

Definition Stat (path : string) : bool :=
  match Demo.find path files with Some _ => true | None => false end.

Definition ReadFile (path : string) : result string :=
  match Demo.find path files with
  | Some contents => Ok contents
  | None => Err ("open " +:+ path +:+ ": no such file or directory")
  end.

Definition runtime : Runtime := {|
  filepath_Match := Unix.Match;
  filepath_Base := Unix.Base;
  filepath_Dir := Unix.Dir;
  filepath_Join := Unix.Join;
  strings_TrimSpace := Unix.TrimSpace;
  os_Stat := Stat;
  ioutil_ReadFile := ReadFile;
  yaml_Unmarshal := Demo.Unmarshal;
  regexp_Compile := Demo.Compile;
  strconv_CanBackquote := Unix.CanBackquote;
  strconv_Quote := Unix.Quote;
  rulesFile := DefaultProfanityFile;
  include := EmptyString;
  exclude := EmptyString
|}.

Definition visits : list (RangeOrder * string) :=
  map (fun '(name, _) => (Demo.ascending, name)) files.

End Silent.

(** ** Invariants of the walk *)

Section WalkInvariants.
Context {RT : Runtime}.

(** Every rule of the rule index carries the path of the rules file of the
    directory it is registered under. *)
Definition stamped (st : State) : Prop :=
  forall K rules r,
    packageRules st !! K = Some rules ->
    In r rules ->
    Rule.File r = filepath_Join K rulesFile.

(** Every directory of the rule index is in the cache, and its resolved
    sequence ends with the rules registered for it. *)
Definition coherent (st : State) : Prop :=
  forall d local,
    packageRules st !! d = Some local ->
    exists inherited, realizedRules st !! d = Some (inherited ++ local).

(** Two states that differ at most in the order of the rules inside the
    cached sequences. *)
Definition similar (st1 st2 : State) : Prop :=
  packageRules st1 = packageRules st2 /\
  loaded st1 = loaded st2 /\
  forall d, option_Forall2 Permutation (realizedRules st1 !! d) (realizedRules st2 !! d).

(** Two walks over the same files, each with map ranges of its own. *)
Definition sameFiles (visits1 visits2 : list (RangeOrder * string)) : Prop :=
  Forall2 (fun v1 v2 => snd v1 = snd v2 /\ range_ok (fst v1) /\ range_ok (fst v2))
    visits1 visits2.

(** Every rule of a cached sequence is registered in the rule index and
    carries the path of the rules file of the key it is registered under. *)
Definition traceable (st : State) : Prop :=
  forall d rules r,
    realizedRules st !! d = Some rules ->
    In r rules ->
    exists K rulesK,
      packageRules st !! K = Some rulesK /\
      In r rulesK /\
      Rule.File r = filepath_Join K rulesFile.

(** The walk function gets to the rules of the file without an error of a
    global filter, and can read the file. *)
Definition readable (file : string) : Prop :=
  (exists b, (if nonempty include then globAnyMatch include file else Ok true) = Ok b) /\
  (exists b, (if nonempty exclude then globAnyMatch exclude file else Ok false) = Ok b) /\
  (exists b, filepath_Match DefaultProfanityFile (filepath_Base file) = Ok b) /\
  (exists contents, ioutil_ReadFile file = Ok contents).

End WalkInvariants.

(** ** Package [sh]: the arguments after the double dash *)

Module sh.

Definition ErrFlagsNoTrailer : string :=
  "sh; error parsing args trailer; missing '--' token, or nothing follows it".

(** What [exception.New(class, exception.OptMessage(message))] is given. *)
Record Exception : Type := mkException {
  Class : string;
  Message : string
}.

(** [strings.Join(elems, sep)] *)
Fixpoint strings_Join (elems : list string) (sep : string) : string :=
  match elems with
  | [] => EmptyString
  | [a] => a
  | a :: elems' => a +:+ sep +:+ strings_Join elems' sep
  end.

(** The result of [ArgsTrailer]: the trailer with a nil error, or nil with
    the exception. *)
Inductive trailer : Type :=
| Trailer (rest : list string)
| Failed (ex : Exception).

Section ArgsTrailer.
(** [strings.TrimSpace] *)
Variable TrimSpace : string -> string.

(** The loop of [ArgsTrailer] from position [index] on: the index of the
    first argument that is the token, and 0, the initial value of
    [foundIndex], when there is none. *)
Fixpoint findIndex (args : list string) (index : nat) : nat :=
  match args with
  | [] => 0
  | arg :: args' =>
      if String.eqb (TrimSpace arg) "--" then index
      else findIndex args' (S index)
  end.

Definition ArgsTrailer (args : list string) : trailer :=
  let foundIndex := findIndex args 0 in
  if foundIndex =? 0 then
    Failed (mkException ErrFlagsNoTrailer ("args: " +:+ strings_Join args " "))
  else if (Z.of_nat foundIndex =? Z.of_nat (length args) - 1)%Z then
    Failed (mkException ErrFlagsNoTrailer "cannot be the last flag argument")
  else Trailer (drop (S foundIndex) args).

End ArgsTrailer.

End sh.

(** ** Package [web]: the counters of the health-check sidecar *)

Module Healthz.

Definition VarzStarted : string := "startedUTC".
Definition VarzRequests : string := "http_requests".
Definition VarzRequests2xx : string := "http_requests2xx".
Definition VarzRequests3xx : string := "http_requests3xx".
Definition VarzRequests4xx : string := "http_requests4xx".
Definition VarzRequests5xx : string := "http_requests5xx".
Definition VarzErrors : string := "errors_total".
Definition VarzFatals : string := "fatals_total".

(** A value of type [interface{}] in the vars: an [int64], a [time.Time]
    (as an instant), or a value of any other type. *)
Inductive Any : Type :=
| Int64 (n : Z)
| Time (t : Z)
| Other (v : string).

(** [int64] arithmetic wraps around. *)
Definition wrap64 (z : Z) : Z := ((z + 2 ^ 63) mod 2 ^ 64 - 2 ^ 63)%Z.

(** [web.State], a [map[string]interface{}]. *)
Abbreviation State := (gmap string Any).

(** The vars [NewHealthz] starts with. *)
Definition NewHealthz_vars : State :=
  <[VarzRequests := Int64 0]> (
  <[VarzRequests2xx := Int64 0]> (
  <[VarzRequests3xx := Int64 0]> (
  <[VarzRequests4xx := Int64 0]> (
  <[VarzRequests5xx := Int64 0]> (
  <[VarzErrors := Int64 0]> (
  <[VarzFatals := Int64 0]> ∅)))))).

(** [incrementVarUnsafe] *)
Definition incrementVarUnsafe (key : string) (vars : State) : State :=
  match vars !! key with
  | Some value =>
      match value with
      | Int64 typed => <[key := Int64 (wrap64 (typed + 1))]> vars
      | _ => vars
      end
  | None => <[key := Int64 1]> vars
  end.

Definition StatusInternalServerError : Z := 500.
Definition StatusBadRequest : Z := 400.
Definition StatusMultipleChoices : Z := 300.

(** [httpResponseListener], on the status code of the event; it runs under
    [varsLock]. *)
Definition httpResponseListener (statusCode : Z) (vars : State) : State :=
  let vars := incrementVarUnsafe VarzRequests vars in
  if (StatusInternalServerError <=? statusCode)%Z then
    incrementVarUnsafe VarzRequests5xx vars
  else if (StatusBadRequest <=? statusCode)%Z then
    incrementVarUnsafe VarzRequests4xx vars
  else if (StatusMultipleChoices <=? statusCode)%Z then
    incrementVarUnsafe VarzRequests3xx vars
  else incrementVarUnsafe VarzRequests2xx vars.

(** The flag of a logger event: [logger.HTTPResponse], [logger.Error],
    [logger.Fatal], or another one. *)
Inductive Flag : Type :=
| HTTPResponseFlag
| Error
| Fatal
| OtherFlag (name : string).

(** [errorListener], on the flag of the event; it runs under [varsLock]. *)
Definition errorListener (flag : Flag) (vars : State) : State :=
  match flag with
  | Error => incrementVarUnsafe VarzErrors vars
  | Fatal => incrementVarUnsafe VarzFatals vars
  | _ => vars
  end.

(** The events the logger hands to the two listeners. *)
Inductive Event : Type :=
| HTTPResponse (statusCode : Z)
| ErrorEvent (flag : Flag).

Definition listen (vars : State) (e : Event) : State :=
  match e with
  | HTTPResponse statusCode => httpResponseListener statusCode vars
  | ErrorEvent flag => errorListener flag vars
  end.

(** The vars after the listeners have run on the events, one after the
    other. *)
Definition listenAll (events : list Event) (vars : State) : State :=
  fold_left listen events vars.

(** How many of the events satisfy [f]. *)
Definition count (f : Event -> bool) (events : list Event) : Z :=
  Z.of_nat (length (List.filter f events)).

Definition isResponse (p : Z -> bool) (e : Event) : bool :=
  match e with
  | HTTPResponse statusCode => p statusCode
  | ErrorEvent _ => false
  end.

Definition isError (e : Event) : bool :=
  match e with
  | ErrorEvent Error => true
  | _ => false
  end.

Definition isFatal (e : Event) : bool :=
  match e with
  | ErrorEvent Fatal => true
  | _ => false
  end.

(** The status classes of [httpResponseListener]. *)
Definition is5xx (c : Z) : bool := (500 <=? c)%Z.
Definition is4xx (c : Z) : bool := (400 <=? c)%Z && negb (500 <=? c)%Z.
Definition is3xx (c : Z) : bool := (300 <=? c)%Z && negb (400 <=? c)%Z.
Definition is2xx (c : Z) : bool := negb (300 <=? c)%Z.

Definition ListenerHealthz : string := "healthz".

(** [ensureListeners] on the vars, with the calls of [Listen] it makes on
    the logger of the app, each with its flag and listener name; [now] is
    [time.Now().UTC()], [appHasLog] tells that [hz.app.log] is not nil.  It
    runs under [varsLock]. *)
Definition ensureListeners (now : Z) (appHasLog : bool) (vars : State)
  : State * list (Flag * string) :=
  match vars !! VarzStarted with
  | Some _ => (vars, [])
  | None =>
      (<[VarzStarted := Time now]> vars,
       if appHasLog
       then [(HTTPResponseFlag, ListenerHealthz); (Error, ListenerHealthz);
             (Fatal, ListenerHealthz)]
       else [])
  end.

(** The seven counters, and the events each of them counts. *)
Definition counters : list string :=
  [VarzRequests; VarzRequests2xx; VarzRequests3xx; VarzRequests4xx;
   VarzRequests5xx; VarzErrors; VarzFatals].

Definition counted (key : string) : Event -> bool :=
  if String.eqb key VarzRequests then isResponse (fun _ => true)
  else if String.eqb key VarzRequests2xx then isResponse is2xx
  else if String.eqb key VarzRequests3xx then isResponse is3xx
  else if String.eqb key VarzRequests4xx then isResponse is4xx
  else if String.eqb key VarzRequests5xx then isResponse is5xx
  else if String.eqb key VarzErrors then isError
  else if String.eqb key VarzFatals then isFatal
  else fun _ => false.

(** A call on the response writer. *)
Inductive WriterCall : Type :=
| WriteHeader (statusCode : Z)
| HeaderSet (key value : string)
| Fprintf (text : string).

Definition StatusOK : Z := 200.
Definition newline : string := String "010"%char EmptyString.

(** The order of [sort.Strings]: byte by byte, a proper prefix first. *)
Definition string_le (a b : string) : Prop :=
  OrdersEx.String_as_OT.compare a b <> Gt.

Definition string_le_dec (a b : string) : Decision (string_le a b) :=
  match OrdersEx.String_as_OT.compare a b as c
        return Decision (c <> Gt) with
  | Gt => right (fun H => H eq_refl)
  | Eq => left (fun H => eq_ind Eq (fun c => match c with Eq => True | _ => False end) I Gt H)
  | Lt => left (fun H => eq_ind Lt (fun c => match c with Lt => True | _ => False end) I Gt H)
  end.

(** [sort.Strings] *)
Definition sort_Strings (keys : list string) : list string :=
  @merge_sort string string_le string_le_dec keys.

Section varz.
(** The constants [HeaderContentType] and [ContentTypeText] of package
    [web], and what the verb [%v] prints for [hz.vars[key]]. *)
Variables HeaderContentType ContentTypeText : string.
Variable formatValue : option Any -> string.

(** [varzHandler], as the calls it makes on the response writer; [order]
    lists the keys of the vars as the map range enumerates them.  It runs
    under [varsLock]. *)
Definition varzHandler (order : list string) (vars : State) : list WriterCall :=
  let keys := sort_Strings order in
  WriteHeader StatusOK ::
  HeaderSet HeaderContentType ContentTypeText ::
  map (fun key => Fprintf (key +:+ ": " +:+ formatValue (vars !! key) +:+ newline)) keys.

End varz.

End Healthz.

(** * Properties *)

(** ** Strings *)

Lemma append_cons (c : ascii) (p q : string) :
  String c p +:+ q = String c (p +:+ q).
Proof. reflexivity. Qed.

Lemma append_assoc (p q r : string) : (p +:+ q) +:+ r = p +:+ q +:+ r.
Proof.
  induction p as [|c p IH]; [reflexivity|].
  rewrite !append_cons, IH. reflexivity.
Qed.

Lemma length_append (p q : string) :
  String.length (p +:+ q) = String.length p + String.length q.
Proof.
  induction p as [|c p IH]; [reflexivity|].
  rewrite append_cons. simpl. rewrite IH. reflexivity.
Qed.

Lemma occurs_here (sub post : string) : occurs sub (sub +:+ post).
Proof. exists EmptyString, post. reflexivity. Qed.

Lemma occurs_append (p sub s : string) : occurs sub s -> occurs sub (p +:+ s).
Proof.
  intros (pre & post & ->). exists (p +:+ pre), post.
  rewrite append_assoc. reflexivity.
Qed.

Lemma prefix_spec (p s : string) :
  String.prefix p s = true <-> exists post, s = p +:+ post.
Proof.
  revert s. induction p as [|a p IH]; intros s.
  - destruct s; simpl; split; eauto.
  - destruct s as [|b s]; simpl.
    + split; [discriminate | intros [post H]; discriminate].
    + destruct (ascii_dec a b) as [->|Hab].
      * rewrite IH. split; intros [post H]; exists post.
        -- rewrite append_cons. congruence.
        -- rewrite append_cons in H. congruence.
      * split; [discriminate|]. intros [post H].
        rewrite append_cons in H. congruence.
Qed.

Lemma strings_HasPrefix_spec (s p : string) :
  strings_HasPrefix s p = true <-> exists post, s = p +:+ post.
Proof. apply prefix_spec. Qed.

Lemma strings_Contains_nil (sub : string) :
  strings_Contains EmptyString sub = String.prefix sub EmptyString.
Proof. unfold strings_Contains. destruct (String.prefix sub EmptyString); reflexivity. Qed.

Lemma strings_Contains_cons (c : ascii) (s sub : string) :
  strings_Contains (String c s) sub =
  if String.prefix sub (String c s) then true else strings_Contains s sub.
Proof. reflexivity. Qed.

Lemma strings_Contains_spec (s sub : string) :
  strings_Contains s sub = true <-> occurs sub s.
Proof.
  induction s as [|c s IH].
  - rewrite strings_Contains_nil, prefix_spec. split.
    + intros [post H]. exists EmptyString, post. exact H.
    + intros (pre & post & H).
      destruct pre as [|c' pre]; [|rewrite append_cons in H; discriminate].
      exists post. exact H.
  - rewrite strings_Contains_cons.
    destruct (String.prefix sub (String c s)) eqn:Hp.
    + apply prefix_spec in Hp as [post Hp].
      split; [intros _; exists EmptyString, post; exact Hp | reflexivity].
    + rewrite IH. split.
      * intros (pre & post & ->). exists (String c pre), post. reflexivity.
      * intros (pre & post & H). destruct pre as [|c' pre].
        -- assert (String.prefix sub (String c s) = true)
             by (apply prefix_spec; eauto).
           congruence.
        -- rewrite append_cons in H. injection H as _ ->.
           exists pre, post. reflexivity.
Qed.

Lemma nonempty_false (s : string) : nonempty s = false <-> s = EmptyString.
Proof. destruct s; split; intros H; try reflexivity; discriminate H. Qed.

Section Properties.
Context {RT : Runtime}.

(** ** Filters of a rule *)

Lemma ShouldInclude_unset (r : Rule) (file : string) :
  Rule.Include r = EmptyString -> ShouldInclude r file = Ok true.
Proof. intros H. unfold ShouldInclude. rewrite H. reflexivity. Qed.

Lemma ShouldExclude_unset (r : Rule) (file : string) :
  Rule.Exclude r = EmptyString -> ShouldExclude r file = Ok false.
Proof. intros H. unfold ShouldExclude. rewrite H. reflexivity. Qed.

Lemma ShouldInclude_set (r : Rule) (file : string) :
  nonempty (Rule.Include r) = true ->
  ShouldInclude r file = globAnyMatch (Rule.Include r) file.
Proof. unfold ShouldInclude, nonempty. destruct (Rule.Include r); [discriminate | reflexivity]. Qed.

Lemma ShouldExclude_set (r : Rule) (file : string) :
  nonempty (Rule.Exclude r) = true ->
  ShouldExclude r file = globAnyMatch (Rule.Exclude r) file.
Proof. unfold ShouldExclude, nonempty. destruct (Rule.Exclude r); [discriminate | reflexivity]. Qed.

(** ** Applying one rule *)

Lemma Contains_violation (value contents : string) :
  (exists err, Contains value contents = Some err) <-> occurs value contents.
Proof.
  unfold Contains. rewrite <- strings_Contains_spec.
  destruct (strings_Contains contents value); split; eauto; try discriminate.
  intros [err H]. discriminate.
Qed.

Lemma NotContains_violation (value contents : string) :
  (exists err, NotContains value contents = Some err) <-> ~ occurs value contents.
Proof.
  unfold NotContains. rewrite <- strings_Contains_spec.
  destruct (strings_Contains contents value); simpl; split; eauto; try congruence.
  intros [err H]. discriminate.
Qed.

Lemma Apply_contains (r : Rule) (contents : string) :
  nonempty (Rule.Contains r) = true ->
  Apply r contents = Return (Contains (Rule.Contains r) contents).
Proof. intros H. unfold Apply. rewrite H. reflexivity. Qed.

Lemma Apply_notContains (r : Rule) (contents : string) :
  nonempty (Rule.Contains r) = false ->
  nonempty (Rule.NotContains r) = true ->
  Apply r contents = Return (NotContains (Rule.NotContains r) contents).
Proof. intros H1 H2. unfold Apply. rewrite H1, H2. reflexivity. Qed.

Lemma Apply_regex (r : Rule) (contents : string) (regex : string -> bool) :
  nonempty (Rule.Contains r) = false ->
  nonempty (Rule.NotContains r) = false ->
  nonempty (Rule.Regex r) = true ->
  regexp_Compile (Rule.Regex r) = Ok regex ->
  Apply r contents =
    Return (if regex contents
            then Some ("regexp match: " +:+ dquote +:+ Rule.Regex r +:+ dquote)
            else None).
Proof.
  intros H1 H2 H3 Hc. unfold Apply, Regex, regexp_MustCompile.
  rewrite H1, H2, H3, Hc. reflexivity.
Qed.

Lemma Apply_regex_malformed (r : Rule) (contents : string) (e : error) :
  nonempty (Rule.Contains r) = false ->
  nonempty (Rule.NotContains r) = false ->
  nonempty (Rule.Regex r) = true ->
  regexp_Compile (Rule.Regex r) = Err e ->
  Apply r contents = Panic (compilePanic (Rule.Regex r) e).
Proof.
  intros H1 H2 H3 Hc. unfold Apply, Regex, regexp_MustCompile.
  rewrite H1, H2, H3, Hc. reflexivity.
Qed.

Lemma Apply_unset (r : Rule) (contents : string) :
  nonempty (Rule.Contains r) = false ->
  nonempty (Rule.NotContains r) = false ->
  nonempty (Rule.Regex r) = false ->
  Apply r contents = Return (Some "no rule set").
Proof. intros H1 H2 H3. unfold Apply. rewrite H1, H2, H3. reflexivity. Qed.

(** C4. [Rule.Apply] picks the check by the first populated field among
    contains, not-contains and regex.  A contains rule violates exactly
    when the literal occurs in the contents, a not-contains rule exactly
    when it does not occur, a regex rule exactly when the compiled
    expression matches the contents; a rule with both contains and regex
    populated behaves as the same rule without its regex. *)
Theorem Apply_dispatch (r : Rule) (contents : string) :
  (nonempty (Rule.Contains r) = true ->
     Apply r contents = Return (Contains (Rule.Contains r) contents) /\
     (violates r contents <-> occurs (Rule.Contains r) contents)) /\
  (nonempty (Rule.Contains r) = false ->
   nonempty (Rule.NotContains r) = true ->
     Apply r contents = Return (NotContains (Rule.NotContains r) contents) /\
     (violates r contents <-> ~ occurs (Rule.NotContains r) contents)) /\
  (nonempty (Rule.Contains r) = false ->
   nonempty (Rule.NotContains r) = false ->
   nonempty (Rule.Regex r) = true ->
   forall regex, regexp_Compile (Rule.Regex r) = Ok regex ->
     (violates r contents <-> regex contents = true)) /\
  (nonempty (Rule.Contains r) = true ->
   nonempty (Rule.Regex r) = true ->
     Apply r contents = Apply (withoutRegex r) contents).
Proof.
  repeat split.
  - apply Apply_contains; assumption.
  - unfold violates. rewrite Apply_contains by assumption.
    intros [err H1]. apply Contains_violation. exists err. congruence.
  - unfold violates. rewrite Apply_contains by assumption.
    intros [err H1]%Contains_violation. exists err. congruence.
  - apply Apply_notContains; assumption.
  - unfold violates. rewrite Apply_notContains by assumption.
    intros [err H1]. apply NotContains_violation. exists err. congruence.
  - unfold violates. rewrite Apply_notContains by assumption.
    intros [err H1]%NotContains_violation. exists err. congruence.
  - unfold violates. rewrite (Apply_regex r contents regex) by assumption.
    intros [err H3]. destruct (regex contents); congruence.
  - unfold violates. rewrite (Apply_regex r contents regex) by assumption.
    intros ->. eauto.
  - intros Hc Hr. rewrite Apply_contains by assumption. symmetry.
    apply (Apply_contains (withoutRegex r)). assumption.
Qed.

(** ** Glob filters *)

Ltac glob_step :=
  match goal with
  | |- context [filepath_Match ?p ?f] =>
      let H := fresh "Hm" in
      destruct (filepath_Match p f) as [[|]|?] eqn:H
  end.

Lemma globAnyMatch_parts_false (parts : list string) (file : string) :
  globAnyMatch_parts parts file = Ok false <-> Forall (cleanMiss file) parts.
Proof.
  induction parts as [|part parts IH]; simpl.
  - split; [constructor | reflexivity].
  - split.
    + repeat glob_step; try discriminate. intros H.
      constructor; [split; assumption | apply IH; assumption].
    + intros H. inversion H as [|? ? [H1 H2] Hrest]; subst.
      rewrite H1, H2. apply IH; assumption.
Qed.

Lemma globAnyMatch_parts_skip (pre parts : list string) (file : string) :
  Forall (cleanMiss file) pre ->
  globAnyMatch_parts (pre ++ parts) file = globAnyMatch_parts parts file.
Proof.
  induction 1 as [|part pre [H1 H2] _ IH]; simpl; [reflexivity|].
  rewrite H1, H2. exact IH.
Qed.

Lemma globAnyMatch_parts_hit (part : string) (parts : list string) (file : string) :
  hits file part -> globAnyMatch_parts (part :: parts) file = Ok true.
Proof. intros [H|[H1 H2]]; simpl; [rewrite H | rewrite H1, H2]; reflexivity. Qed.

Lemma globAnyMatch_parts_break (part : string) (parts : list string)
    (file : string) (e : error) :
  breaks file part e -> globAnyMatch_parts (part :: parts) file = Err e.
Proof. intros [H|[H1 H2]]; simpl; [rewrite H | rewrite H1, H2]; reflexivity. Qed.

Lemma globAnyMatch_parts_true (parts : list string) (file : string) :
  globAnyMatch_parts parts file = Ok true <->
  exists pre part post,
    parts = pre ++ part :: post /\ Forall (cleanMiss file) pre /\ hits file part.
Proof.
  split.
  - induction parts as [|part parts IH]; simpl; [discriminate|].
    destruct (filepath_Match (strings_TrimSpace part) file) as [[|]|?] eqn:H1;
      try discriminate.
    + intros _. exists [], part, parts. repeat split; [constructor | left; assumption].
    + destruct (filepath_Match (strings_TrimSpace part) (filepath_Base file))
        as [[|]|?] eqn:H2; try discriminate.
      * intros _. exists [], part, parts.
        repeat split; [constructor | right; split; assumption].
      * intros (pre & part' & post & -> & Hpre & Hhit)%IH.
        exists (part :: pre), part', post.
        repeat split; [constructor; [split|]; assumption | assumption].
  - intros (pre & part & post & -> & Hpre & Hhit).
    rewrite globAnyMatch_parts_skip by assumption.
    apply globAnyMatch_parts_hit; assumption.
Qed.

Lemma globAnyMatch_parts_wellFormed (parts : list string) (file : string) :
  Forall (wellFormed file) parts ->
  (globAnyMatch_parts parts file = Ok true <-> Exists (matchesEither file) parts).
Proof.
  induction 1 as [|part parts [[b1 H1] [b2 H2]] _ IH]; simpl.
  - split; [discriminate | intros H; inversion H].
  - rewrite H1, H2. destruct b1.
    + split; [intros _; left; left; assumption | reflexivity].
    + destruct b2.
      * split; [intros _; left; right; assumption | reflexivity].
      * rewrite IH. split; [intros H; right; assumption|].
        intros H. inversion H as [? ? [Hm|Hm]|]; subst; [congruence | congruence | assumption].
Qed.

(** ** Evaluation *)

Lemma Evaluate_skipped (r : Rule) (rules : list Rule) (file contents : string) :
  skipped r file ->
  Evaluate (r :: rules) file contents = Evaluate rules file contents.
Proof.
  intros [[Hs Hm]|(Hi & Hs & Hm)]; simpl.
  - rewrite ShouldInclude_set, Hm by assumption. reflexivity.
  - rewrite Hi, ShouldExclude_set, Hm by assumption. reflexivity.
Qed.

Lemma Evaluate_harmless (r : Rule) (rules : list Rule) (file contents : string) :
  harmless file contents r ->
  Evaluate (r :: rules) file contents = Evaluate rules file contents.
Proof.
  intros [Hs|[[Hi He] Ha]]; [apply Evaluate_skipped; assumption|].
  simpl. rewrite Hi, He, Ha. reflexivity.
Qed.

Lemma Evaluate_past (pre rules : list Rule) (file contents : string) :
  Forall (harmless file contents) pre ->
  Evaluate (pre ++ rules) file contents = Evaluate rules file contents.
Proof.
  induction 1 as [|r pre Hr _ IH]; [reflexivity|].
  rewrite <- app_comm_cons, Evaluate_harmless by assumption. exact IH.
Qed.

Lemma Evaluate_violation (r : Rule) (rules : list Rule) (file contents : string)
    (err : error) :
  considered r file ->
  Apply r contents = Return (Some err) ->
  Evaluate (r :: rules) file contents = Return (Some (violation file err r)).
Proof. intros [Hi He] Ha. simpl. rewrite Hi, He, Ha. reflexivity. Qed.

Lemma Evaluate_panic (r : Rule) (rules : list Rule) (file contents : string)
    (v : error) :
  considered r file ->
  Apply r contents = Panic v ->
  Evaluate (r :: rules) file contents = Panic v.
Proof. intros [Hi He] Ha. simpl. rewrite Hi, He, Ha. reflexivity. Qed.

Lemma Evaluate_filter_error (r : Rule) (rules : list Rule) (file contents : string)
    (e : error) :
  ShouldInclude r file = Err e \/
  (ShouldInclude r file = Ok true /\ ShouldExclude r file = Err e) ->
  Evaluate (r :: rules) file contents = Return (Some e).
Proof. intros [Hi|[Hi He]]; simpl; [rewrite Hi | rewrite Hi, He]; reflexivity. Qed.

(** C5. The loop over the resolved rules passes over every rule whose
    include filter is set and does not match the file or whose exclude
    filter is set and matches it, whatever that rule would report; and when
    the rules before [r] are skipped or report nothing and [r] is applied
    and reports [err], the loop returns the violation of [r], whatever
    rules follow it. *)
Theorem Evaluate_fail_fast (file contents : string) :
  (forall r rules,
     skipped r file ->
     Evaluate (r :: rules) file contents = Evaluate rules file contents) /\
  (forall pre r err,
     Forall (harmless file contents) pre ->
     considered r file ->
     Apply r contents = Return (Some err) ->
     forall post,
       Evaluate (pre ++ r :: post) file contents =
       Return (Some (violation file err r))).
Proof.
  split.
  - intros r rules Hs. apply Evaluate_skipped; assumption.
  - intros pre r err Hpre Hc Ha post.
    rewrite Evaluate_past by assumption.
    apply Evaluate_violation; assumption.
Qed.

(** C7. A rule with none of contains, not-contains and regex populated
    makes [Rule.Apply] fail with "no rule set" on any contents; when the
    loop reaches the rule, the failure is reported the way a violation is;
    and loading does not reject the rule: [deserializeRules] returns it,
    stamped with the path, like any other. *)
Theorem unset_rule_fails_when_applied (r : Rule) :
  nonempty (Rule.Contains r) = false ->
  nonempty (Rule.NotContains r) = false ->
  nonempty (Rule.Regex r) = false ->
  (forall contents, Apply r contents = Return (Some "no rule set")) /\
  (forall pre post file contents,
     Forall (harmless file contents) pre ->
     considered r file ->
     Evaluate (pre ++ r :: post) file contents =
     Return (Some (violation file "no rule set" r))) /\
  (forall path contents fileRules,
     ioutil_ReadFile path = Ok contents ->
     yaml_Unmarshal contents = Ok fileRules ->
     In r fileRules ->
     exists rules, deserializeRules path = Ok rules /\ In (withFile path r) rules).
Proof.
  intros H1 H2 H3. split; [|split].
  - intros contents. apply Apply_unset; assumption.
  - intros pre post file contents Hpre Hc.
    rewrite Evaluate_past by assumption.
    apply Evaluate_violation; [assumption | apply Apply_unset; assumption].
  - intros path contents fileRules Hr Hy Hin.
    exists (map (withFile path) fileRules). split.
    + unfold deserializeRules. rewrite Hr, Hy. reflexivity.
    + apply in_map; assumption.
Qed.

(** C10. A rule with an empty include filter is included for every file,
    and a rule with an empty exclude filter excludes no file, in both cases
    without error and whatever the glob matcher of the runtime does. *)
Theorem unset_filters_decide_without_glob (r : Rule) (file : string) :
  (Rule.Include r = EmptyString -> ShouldInclude r file = Ok true) /\
  (Rule.Exclude r = EmptyString -> ShouldExclude r file = Ok false).
Proof. split; [apply ShouldInclude_unset | apply ShouldExclude_unset]. Qed.

(** ** The rule-file loader *)

Lemma localRules_absent (d : string) (st : State) :
  os_Stat (filepath_Join d rulesFile) = false ->
  localRules d st =
    (Ok [], mkState (realizedRules st) (packageRules st) (d :: loaded st)).
Proof. intros H. unfold localRules. rewrite H. reflexivity. Qed.

Lemma localRules_log (d : string) (st : State) :
  loaded (snd (localRules d st)) = d :: loaded st /\
  realizedRules (snd (localRules d st)) = realizedRules st.
Proof.
  unfold localRules. destruct (os_Stat _); simpl; [|split; reflexivity].
  destruct (deserializeRules _); split; reflexivity.
Qed.

Lemma localRules_index (d : string) (st st' : State) (local : list Rule) :
  localRules d st = (Ok local, st') ->
  forall K, K <> d -> packageRules st' !! K = packageRules st !! K.
Proof.
  unfold localRules. intros H K HK.
  destruct (os_Stat _); simpl in H.
  - destruct (deserializeRules _); [|discriminate].
    injection H as _ <-. simpl. rewrite lookup_insert_ne by congruence. reflexivity.
  - injection H as _ <-. reflexivity.
Qed.

(** ** The rule resolver *)

Lemma inherit_suffix (path : string) (rules : list Rule)
    (entry : string * list Rule) :
  exists inherited, inherit path rules entry = inherited ++ rules.
Proof.
  destruct entry as [key inheritedRules]. unfold inherit.
  destruct (_ && _); [exists inheritedRules | exists []]; reflexivity.
Qed.

Lemma inherit_fold_suffix (path : string) (entries : list (string * list Rule))
    (rules : list Rule) :
  exists inherited, fold_left (inherit path) entries rules = inherited ++ rules.
Proof.
  revert rules. induction entries as [|entry entries IH]; intros rules; simpl.
  - exists []. reflexivity.
  - destruct (inherit_suffix path rules entry) as [x ->].
    destruct (IH (x ++ rules)) as [y ->].
    exists (y ++ x). rewrite <- app_assoc. reflexivity.
Qed.

Lemma inherit_fold_entry (path : string) (entries : list (string * list Rule))
    (rules : list Rule) (K : string) (rulesK : list Rule) :
  In (K, rulesK) entries ->
  strings_HasPrefix path K = true ->
  K <> path ->
  exists pre mid,
    fold_left (inherit path) entries rules = pre ++ rulesK ++ mid ++ rules.
Proof.
  intros Hin Hp Hne. revert rules.
  induction entries as [|entry entries IH]; intros rules; [destruct Hin|].
  simpl. destruct Hin as [->|Hin].
  - unfold inherit at 2. rewrite Hp.
    apply String.eqb_neq in Hne. rewrite Hne. simpl.
    destruct (inherit_fold_suffix path entries (rulesK ++ rules)) as [pre ->].
    exists pre, []. reflexivity.
  - destruct (inherit_suffix path rules entry) as [x ->].
    destruct (IH Hin (x ++ rules)) as (pre & mid & ->).
    exists pre, (mid ++ x). rewrite <- !app_assoc. reflexivity.
Qed.

(** The part of [discoverRules] after the local rules are loaded. *)
Lemma discoverRules_loaded (ord : RangeOrder) (d : string) (st st' : State)
    (local : list Rule) :
  localRules d st = (Ok local, st') ->
  discoverRules ord d st =
    (Ok (match packageRules st' !! "." with
         | Some rootRules =>
             if negb (String.eqb d ".")
             then rootRules ++ fold_left (inherit d) (ord (packageRules st')) local
             else fold_left (inherit d) (ord (packageRules st')) local
         | None => fold_left (inherit d) (ord (packageRules st')) local
         end), st').
Proof. intros H. unfold discoverRules. rewrite H. reflexivity. Qed.

Lemma discoverRules_root_prefix (ord : RangeOrder) (d : string) (st st' : State)
    (local : list Rule) :
  localRules d st = (Ok local, st') ->
  exists pre,
    discoverRules ord d st =
      (Ok (pre ++ fold_left (inherit d) (ord (packageRules st')) local), st').
Proof.
  intros H. rewrite (discoverRules_loaded ord d st st' local H).
  destruct (packageRules st' !! ".") as [rootRules|];
    [destruct (negb _); [exists rootRules | exists []] | exists []]; reflexivity.
Qed.

(** C1. Let [local] be the rules directory [d] has of its own: those its
    rules file deserializes to, or none when it has no rules file.  Then
    the resolver registers them in the rule index when the file is there,
    the resolved sequence ends with them, and for every key [K] of the rule
    index that is a prefix of [d] as a string and differs from [d], the
    rules registered under [K] occur in the resolved sequence ahead of
    them.  The test is on the strings alone: it holds of the key [foo] for
    directory [foobar]. *)
Theorem discoverRules_inherits_by_prefix (ord : RangeOrder) (d : string)
    (st : State) (local : list Rule) :
  range_ok ord ->
  (os_Stat (filepath_Join d rulesFile) = true /\
   deserializeRules (filepath_Join d rulesFile) = Ok local) \/
  (os_Stat (filepath_Join d rulesFile) = false /\ local = []) ->
  snd (discoverRules ord d st) =
    mkState (realizedRules st)
      (if os_Stat (filepath_Join d rulesFile)
       then <[d := local]> (packageRules st) else packageRules st)
      (d :: loaded st) /\
  (exists inherited, fst (discoverRules ord d st) = Ok (inherited ++ local)) /\
  (forall K rulesK,
     packageRules st !! K = Some rulesK ->
     strings_HasPrefix d K = true ->
     K <> d ->
     exists pre mid,
       fst (discoverRules ord d st) = Ok (pre ++ rulesK ++ mid ++ local)).
Proof.
  intros Hord Hfile.
  assert (Hl : localRules d st =
               (Ok local,
                mkState (realizedRules st)
                  (if os_Stat (filepath_Join d rulesFile)
                   then <[d := local]> (packageRules st) else packageRules st)
                  (d :: loaded st))).
  { unfold localRules.
    destruct Hfile as [[Hs Hd]|[Hs ->]]; rewrite Hs; simpl; [|reflexivity].
    rewrite Hd. reflexivity. }
  destruct (discoverRules_root_prefix ord d st _ local Hl) as [root Hd].
  split; [rewrite Hd; reflexivity|]. split.
  - destruct (inherit_fold_suffix d (ord (packageRules (snd (localRules d st)))) local)
      as [inh Hf].
    rewrite Hl in Hf. simpl in Hf.
    exists (root ++ inh). rewrite Hd. simpl. rewrite Hf, <- app_assoc. reflexivity.
  - intros K rulesK HK Hp Hne.
    pose proof (localRules_index d st _ local Hl K Hne) as Hidx.
    simpl in Hidx.
    assert (Hin : In (K, rulesK)
                    (ord (if os_Stat (filepath_Join d rulesFile)
                          then <[d := local]> (packageRules st)
                          else packageRules st))).
    { apply list_elem_of_In. rewrite (Hord _).
      apply elem_of_map_to_list. rewrite Hidx. exact HK. }
    destruct (inherit_fold_entry d _ local K rulesK Hin Hp Hne) as (pre & mid & Hf).
    exists (root ++ pre), mid. rewrite Hd. simpl. rewrite Hf, <- app_assoc.
    reflexivity.
Qed.

(** For a directory [d] other than the root with no rules file of its
    own, when the rules of the root are registered in the rule index at
    the time [d] is resolved, resolution succeeds and the resolved sequence
    starts with the root's rules. *)
Lemma discoverRules_root_rules_first (ord : RangeOrder) (d : string)
    (st : State) (rootRules : list Rule) :
  d <> "." ->
  os_Stat (filepath_Join d rulesFile) = false ->
  packageRules st !! "." = Some rootRules ->
  exists rest,
    discoverRules ord d st =
      (Ok (rootRules ++ rest),
       mkState (realizedRules st) (packageRules st) (d :: loaded st)).
Proof.
  intros Hne Hs Hroot.
  rewrite (discoverRules_loaded ord d st _ [] (localRules_absent d st Hs)).
  simpl. rewrite Hroot.
  apply String.eqb_neq in Hne. rewrite Hne. simpl. eauto.
Qed.

(** ** The resolution cache *)

Lemma getRules_hit (ord : RangeOrder) (d : string) (st : State)
    (rules : list Rule) :
  realizedRules st !! d = Some rules -> getRules ord d st = (Ok rules, st).
Proof. intros H. unfold getRules. rewrite H. reflexivity. Qed.

Lemma getRules_miss (ord : RangeOrder) (d : string) (st : State) :
  realizedRules st !! d = None ->
  getRules ord d st =
    match discoverRules ord d st with
    | (Err e, st') => (Err e, st')
    | (Ok rules, st') =>
        (Ok rules,
         mkState (<[d := rules]> (realizedRules st')) (packageRules st') (loaded st'))
    end.
Proof. intros H. unfold getRules. rewrite H. reflexivity. Qed.

Lemma getRules_stored (ord : RangeOrder) (d : string) (st st' : State)
    (rules : list Rule) :
  getRules ord d st = (Ok rules, st') -> realizedRules st' !! d = Some rules.
Proof.
  unfold getRules. destruct (realizedRules st !! d) as [cached|] eqn:Hc.
  - intros H. injection H as <- <-. exact Hc.
  - destruct (discoverRules ord d st) as [[found|e] st1]; [|discriminate].
    intros H. injection H as <- <-. simpl. apply lookup_insert_eq.
Qed.

Lemma discoverRules_log (ord : RangeOrder) (d : string) (st : State) :
  loaded (snd (discoverRules ord d st)) = d :: loaded st /\
  realizedRules (snd (discoverRules ord d st)) = realizedRules st.
Proof.
  unfold discoverRules. pose proof (localRules_log d st) as H.
  destruct (localRules d st) as [[local|e] st']; exact H.
Qed.

Lemma cache_inv_initial : cache_inv initial.
Proof. split; [constructor | intros d Hd; inversion Hd]. Qed.

Lemma getRules_inv (ord : RangeOrder) (d : string) (st : State) :
  cache_inv st ->
  NoDup (loaded (snd (getRules ord d st))) /\
  (forall rules, fst (getRules ord d st) = Ok rules ->
                 cache_inv (snd (getRules ord d st))).
Proof.
  intros [Hnd Hin]. unfold getRules.
  destruct (realizedRules st !! d) as [cached|] eqn:Hc; simpl.
  - split; [assumption | intros _ _; split; assumption].
  - destruct (discoverRules_log ord d st) as [Hlog Hreal].
    assert (Hfresh : d ∉ loaded st) by (intros H; apply (Hin d H); exact Hc).
    assert (Hnd' : NoDup (d :: loaded st)) by (constructor; assumption).
    destruct (discoverRules ord d st) as [[found|e] st1]; simpl in *.
    + rewrite Hlog. split; [assumption|].
      intros rules _. split; simpl; [assumption|].
      intros d' Hd'. rewrite Hreal.
      destruct (decide (d = d')) as [->|Hne].
      * rewrite lookup_insert_eq. discriminate.
      * rewrite lookup_insert_ne by assumption.
        apply elem_of_cons in Hd' as [?|Hd']; [congruence | apply Hin; assumption].
    + rewrite Hlog. split; [assumption | discriminate].
Qed.

Lemma walkFn_inv (ord : RangeOrder) (file : string) (st : State) :
  cache_inv st ->
  NoDup (loaded (snd (walkFn ord file st))) /\
  (fst (walkFn ord file st) = Return None -> cache_inv (snd (walkFn ord file st))).
Proof.
  intros Hinv. pose proof Hinv as [Hnd _]. unfold walkFn.
  destruct (if nonempty include then _ else _) as [[|]|?]; simpl; auto.
  destruct (if nonempty exclude then _ else _) as [[|]|?]; simpl; auto.
  destruct (filepath_Match _ _) as [[|]|?]; simpl; auto.
  destruct (getRules_inv ord (filepath_Dir file) st Hinv) as [Hnd' Hinv'].
  destruct (getRules ord (filepath_Dir file) st) as [[rules|e] st']; simpl in *.
  - destruct (ioutil_ReadFile file); simpl; eauto.
  - split; [assumption | discriminate].
Qed.

Lemma walk_loads_once (visits : list (RangeOrder * string)) (st : State) :
  cache_inv st -> NoDup (loaded (snd (walk visits st))).
Proof.
  revert st. induction visits as [|[ord file] visits IH]; intros st Hinv; simpl.
  - apply Hinv.
  - destruct (walkFn_inv ord file st Hinv) as [Hnd Hnext].
    destruct (walkFn ord file st) as [[[e|]|v] st']; simpl in *; auto.
Qed.

Lemma getRules_keeps (ord : RangeOrder) (d' : string) (st : State)
    (d : string) (rules : list Rule) :
  realizedRules st !! d = Some rules ->
  realizedRules (snd (getRules ord d' st)) !! d = Some rules.
Proof.
  intros H. unfold getRules.
  destruct (realizedRules st !! d') as [cached|] eqn:Hc; simpl; [assumption|].
  destruct (discoverRules_log ord d' st) as [_ Hreal].
  destruct (discoverRules ord d' st) as [[found|e] st1]; simpl in *.
  - rewrite Hreal, lookup_insert_ne by congruence. assumption.
  - rewrite Hreal. assumption.
Qed.

Lemma walkFn_keeps (ord : RangeOrder) (file : string) (st : State)
    (d : string) (rules : list Rule) :
  realizedRules st !! d = Some rules ->
  realizedRules (snd (walkFn ord file st)) !! d = Some rules.
Proof.
  intros H. unfold walkFn.
  destruct (if nonempty include then _ else _) as [[|]|?]; simpl; auto.
  destruct (if nonempty exclude then _ else _) as [[|]|?]; simpl; auto.
  destruct (filepath_Match _ _) as [[|]|?]; simpl; auto.
  pose proof (getRules_keeps ord (filepath_Dir file) st d rules H) as Hk.
  destruct (getRules ord (filepath_Dir file) st) as [[found|e] st']; simpl in *.
  - destruct (ioutil_ReadFile file); simpl; assumption.
  - assumption.
Qed.

Lemma walk_keeps (visits : list (RangeOrder * string)) (st : State)
    (d : string) (rules : list Rule) :
  realizedRules st !! d = Some rules ->
  realizedRules (snd (walk visits st)) !! d = Some rules.
Proof.
  revert st. induction visits as [|[ord file] visits IH]; intros st H; simpl.
  - assumption.
  - pose proof (walkFn_keeps ord file st d rules H) as Hk.
    destruct (walkFn ord file st) as [[[e|]|v] st']; simpl in *; auto.
Qed.

Lemma getRules_log_covers (ord : RangeOrder) (d : string) (st : State) :
  (forall d', realizedRules st !! d' <> None -> d' ∈ loaded st) ->
  forall d',
    realizedRules (snd (getRules ord d st)) !! d' <> None ->
    d' ∈ loaded (snd (getRules ord d st)).
Proof.
  intros H d'. unfold getRules.
  destruct (realizedRules st !! d) as [cached|] eqn:Hc; simpl; [apply H|].
  destruct (discoverRules_log ord d st) as [Hlog Hreal].
  destruct (discoverRules ord d st) as [[found|e] st1]; simpl in *;
    rewrite Hlog, Hreal.
  - destruct (decide (d = d')) as [<-|Hne]; [intros _; apply list_elem_of_here|].
    rewrite lookup_insert_ne by assumption.
    intros Hd'. apply list_elem_of_further, H, Hd'.
  - intros Hd'. apply list_elem_of_further, H, Hd'.
Qed.

Lemma walkFn_log_covers (ord : RangeOrder) (file : string) (st : State) :
  (forall d', realizedRules st !! d' <> None -> d' ∈ loaded st) ->
  forall d',
    realizedRules (snd (walkFn ord file st)) !! d' <> None ->
    d' ∈ loaded (snd (walkFn ord file st)).
Proof.
  intros H. unfold walkFn.
  destruct (if nonempty include then _ else _) as [[|]|?]; simpl; auto.
  destruct (if nonempty exclude then _ else _) as [[|]|?]; simpl; auto.
  destruct (filepath_Match _ _) as [[|]|?]; simpl; auto.
  pose proof (getRules_log_covers ord (filepath_Dir file) st H) as Hk.
  destruct (getRules ord (filepath_Dir file) st) as [[found|e] st']; simpl in *.
  - destruct (ioutil_ReadFile file); simpl; assumption.
  - assumption.
Qed.

Lemma walk_log_covers (visits : list (RangeOrder * string)) (st : State) :
  (forall d', realizedRules st !! d' <> None -> d' ∈ loaded st) ->
  forall d',
    realizedRules (snd (walk visits st)) !! d' <> None ->
    d' ∈ loaded (snd (walk visits st)).
Proof.
  revert st. induction visits as [|[ord file] visits IH]; intros st H; simpl.
  - assumption.
  - pose proof (walkFn_log_covers ord file st H) as Hk.
    destruct (walkFn ord file st) as [[[e|]|v] st']; simpl in *; auto.
Qed.

(** C8. When directory [d] has no rules file, the loader returns the
    empty sequence without error and leaves the rule index as it is; a
    lookup of [d] that is not cached yet succeeds and stores what it
    returns, so that a repeated lookup is answered from the cache; and the
    stored sequence is empty when the rule index is. *)
Theorem absent_rules_file_is_no_error (ord : RangeOrder) (d : string)
    (st : State) :
  os_Stat (filepath_Join d rulesFile) = false ->
  fst (localRules d st) = Ok [] /\
  packageRules (snd (localRules d st)) = packageRules st /\
  (realizedRules st !! d = None ->
   exists rules st',
     getRules ord d st = (Ok rules, st') /\
     realizedRules st' !! d = Some rules /\
     packageRules st' = packageRules st /\
     (forall ord', getRules ord' d st' = (Ok rules, st')) /\
     (range_ok ord -> packageRules st = ∅ -> rules = [])).
Proof.
  intros Hs. rewrite (localRules_absent d st Hs). simpl.
  split; [reflexivity | split; [reflexivity|]].
  intros Hmiss. rewrite (getRules_miss ord d st Hmiss).
  rewrite (discoverRules_loaded ord d st _ [] (localRules_absent d st Hs)).
  simpl. eexists. eexists. split; [reflexivity|].
  split; [apply lookup_insert_eq|]. split; [reflexivity|]. split.
  - intros ord'. apply getRules_hit. apply lookup_insert_eq.
  - intros Hord Hempty. rewrite Hempty, lookup_empty.
    pose proof (Hord ∅) as Hp. rewrite map_to_list_empty in Hp.
    apply Permutation_nil_r in Hp. rewrite Hp. reflexivity.
Qed.

(** ** Fatal errors *)

Lemma walkFn_evaluates (ord : RangeOrder) (file : string) (st st' : State)
    (rules : list Rule) (contents : string) :
  admitted file ->
  getRules ord (filepath_Dir file) st = (Ok rules, st') ->
  ioutil_ReadFile file = Ok contents ->
  walkFn ord file st = (Evaluate rules file contents, st').
Proof.
  intros (Hi & He & Hp) Hg Hr. unfold walkFn.
  rewrite Hi, He, Hp, Hg, Hr. reflexivity.
Qed.

Lemma walk_stops (ord : RangeOrder) (file : string)
    (visits : list (RangeOrder * string)) (st st' : State)
    (out : exec (option error)) :
  walkFn ord file st = (out, st') ->
  out <> Return None ->
  walk ((ord, file) :: visits) st = (out, st').
Proof.
  intros H Hout. simpl. rewrite H.
  destruct out as [[e|]|v]; [reflexivity | contradiction | reflexivity].
Qed.

(** C9, as the code has it.  A malformed pattern is fatal where the
    library reports it.  A glob filter is reported as not matching only
    when every attempt on every pattern of it came out as a mismatch
    without error, and the error of the first attempt that fails is the
    result of the filter; in the loop over the rules such an error of the
    include or exclude filter of the first rule that is not passed over is
    returned as it is, and a regular expression that does not compile
    panics, with the message of [regexp.MustCompile], when its rule is
    applied; either one, as any outcome of the loop other than falling out
    of it, ends the walk at that file. *)
Theorem malformed_patterns_are_fatal :
  (forall filter file,
     globAnyMatch filter file = Ok false ->
     Forall (cleanMiss file) (strings_Split filter ","%char)) /\
  (forall filter file pre part post e,
     strings_Split filter ","%char = pre ++ part :: post ->
     Forall (cleanMiss file) pre ->
     breaks file part e ->
     globAnyMatch filter file = Err e) /\
  (forall pre r post file contents e,
     Forall (harmless file contents) pre ->
     ShouldInclude r file = Err e \/
     (ShouldInclude r file = Ok true /\ ShouldExclude r file = Err e) ->
     Evaluate (pre ++ r :: post) file contents = Return (Some e)) /\
  (forall pre r post file contents e,
     Forall (harmless file contents) pre ->
     considered r file ->
     nonempty (Rule.Contains r) = false ->
     nonempty (Rule.NotContains r) = false ->
     nonempty (Rule.Regex r) = true ->
     regexp_Compile (Rule.Regex r) = Err e ->
     Apply r contents = Panic (compilePanic (Rule.Regex r) e) /\
     Evaluate (pre ++ r :: post) file contents =
       Panic (compilePanic (Rule.Regex r) e)) /\
  (forall ord file visits st st' rules contents,
     admitted file ->
     getRules ord (filepath_Dir file) st = (Ok rules, st') ->
     ioutil_ReadFile file = Ok contents ->
     Evaluate rules file contents <> Return None ->
     walk ((ord, file) :: visits) st = (Evaluate rules file contents, st')).
Proof.
  split; [|split; [|split; [|split]]].
  - intros filter file H. apply globAnyMatch_parts_false. exact H.
  - intros filter file pre part post e Hsplit Hpre Hb. unfold globAnyMatch.
    rewrite Hsplit, globAnyMatch_parts_skip by assumption.
    apply globAnyMatch_parts_break; assumption.
  - intros pre r post file contents e Hpre Hf.
    rewrite Evaluate_past by assumption.
    apply Evaluate_filter_error; assumption.
  - intros pre r post file contents e Hpre Hc H1 H2 H3 Hre.
    pose proof (Apply_regex_malformed r contents e H1 H2 H3 Hre) as Ha.
    split; [exact Ha|].
    rewrite Evaluate_past by assumption.
    apply Evaluate_panic; assumption.
  - intros ord file visits st st' rules contents Ha Hg Hr Hout.
    apply walk_stops; [|assumption].
    apply walkFn_evaluates; assumption.
Qed.

End Properties.

(** ** The cache, for every runtime *)

(** C3. The lookup is memoized in [realizedRules].  On a hit it returns
    the stored sequence and leaves the state as it is, the log of loader
    calls included, whatever the runtime: neither the file system nor the
    rule index is consulted.  On a miss it returns what the resolver
    returns, the resolver enters the loader once, with that directory, and
    a resolved sequence is stored under the directory and nothing else in
    the cache changes.  So a lookup that returned a sequence returns the
    same sequence when it is repeated later in the scan, whatever files the
    walk has visited in between, under any map order and even on another
    file system, and changes nothing.  Over a whole walk, on every
    outcome, the loader is entered at most once with any directory, and
    with every directory that has an entry in the cache. *)
Theorem getRules_memoized :
  (forall (RT : Runtime) ord d st rules,
     realizedRules st !! d = Some rules ->
     getRules ord d st = (Ok rules, st)) /\
  (forall (RT : Runtime) ord d st,
     realizedRules st !! d = None ->
     fst (getRules ord d st) = fst (discoverRules ord d st) /\
     loaded (snd (getRules ord d st)) = d :: loaded st /\
     packageRules (snd (getRules ord d st)) =
       packageRules (snd (discoverRules ord d st)) /\
     realizedRules (snd (getRules ord d st)) =
       match fst (discoverRules ord d st) with
       | Ok rules => <[d := rules]> (realizedRules st)
       | Err _ => realizedRules st
       end) /\
  (forall (RT1 RT2 RT3 : Runtime) ord d st rules st1,
     getRules (RT := RT1) ord d st = (Ok rules, st1) ->
     forall visits ord',
       getRules (RT := RT3) ord' d (snd (walk (RT := RT2) visits st1)) =
       (Ok rules, snd (walk (RT := RT2) visits st1))) /\
  (forall (RT : Runtime) visits,
     NoDup (loaded (snd (walk visits initial))) /\
     forall d,
       realizedRules (snd (walk visits initial)) !! d <> None ->
       d ∈ loaded (snd (walk visits initial))).
Proof.
  split; [|split; [|split]].
  - intros RT ord d st rules H. apply getRules_hit, H.
  - intros RT ord d st Hmiss. rewrite (getRules_miss ord d st Hmiss).
    destruct (discoverRules_log ord d st) as [Hlog Hreal].
    destruct (discoverRules ord d st) as [[found|e] st1]; simpl in *;
      rewrite ?Hreal; repeat split; assumption.
  - intros RT1 RT2 RT3 ord d st rules st1 H visits ord'.
    apply getRules_hit, walk_keeps.
    apply (getRules_stored (RT := RT1) ord d st st1 rules H).
  - intros RT visits. split.
    + apply walk_loads_once, cache_inv_initial.
    + apply walk_log_covers. intros d Hd. simpl in Hd.
      rewrite lookup_empty in Hd. contradiction.
Qed.

(** ** The filter predicate, for every runtime and on the Unix one *)

(** C6, as the code has it.  [globAnyMatch] answers true exactly when some
    pattern of the comma-separated filter matches the full path or, failing
    that, the base name, and every attempt made before that one came out as
    a mismatch without error; for a filter none of whose patterns is
    reported malformed that is exactly when some pattern matches the full
    path or the base name.  On Unix the filter [c.go] accepts [/a/b/c.go]:
    the pattern does not match the path, it matches the base name. *)
Theorem globAnyMatch_true_iff :
  (forall (RT : Runtime) (filter file : string),
     globAnyMatch filter file = Ok true <->
     exists pre part post,
       strings_Split filter ","%char = pre ++ part :: post /\
       Forall (cleanMiss file) pre /\
       hits file part) /\
  (forall (RT : Runtime) (filter file : string),
     Forall (wellFormed file) (strings_Split filter ","%char) ->
     (globAnyMatch filter file = Ok true <->
      Exists (matchesEither file) (strings_Split filter ","%char))) /\
  (globAnyMatch (RT := Demo.runtime) "c.go" "/a/b/c.go" = Ok true /\
   Unix.Match "c.go" "/a/b/c.go" = Ok false /\
   Unix.Match "c.go" (Unix.Base "/a/b/c.go") = Ok true).
Proof.
  split; [|split].
  - intros RT filter file. apply globAnyMatch_parts_true.
  - intros RT filter file H. apply globAnyMatch_parts_wellFormed. exact H.
  - vm_compute. repeat split.
Qed.

(** The filter [*.md, c.go] has no malformed pattern and accepts
    [/a/b/c.go] by its second pattern. *)
Lemma globAnyMatch_true_iff_witness :
  globAnyMatch (RT := Demo.runtime) "*.md, c.go" "/a/b/c.go" = Ok true.
Proof.
  apply (proj1 (proj2 globAnyMatch_true_iff) Demo.runtime "*.md, c.go" "/a/b/c.go").
  - repeat constructor; eexists; vm_compute; reflexivity.
  - right. left. right. vm_compute. reflexivity.
Defined.

(** C6 as stated fails: in the filter [[,c.go] the pattern [c.go] matches
    the base name of [/a/b/c.go], yet the filter does not answer true: its
    first pattern is malformed and the call fails on it. *)
Lemma globAnyMatch_malformed_part_hides_match :
  strings_Split "[,c.go" ","%char = ["["; "c.go"] /\
  matchesEither (RT := Demo.runtime) "/a/b/c.go" "c.go" /\
  globAnyMatch (RT := Demo.runtime) "[,c.go" "/a/b/c.go" = Err Unix.ErrBadPattern /\
  ~ (globAnyMatch (RT := Demo.runtime) "[,c.go" "/a/b/c.go" = Ok true <->
     Exists (matchesEither (RT := Demo.runtime) "/a/b/c.go")
       (strings_Split "[,c.go" ","%char)).
Proof.
  assert (Hm : matchesEither (RT := Demo.runtime) "/a/b/c.go" "c.go")
    by (right; vm_compute; reflexivity).
  split; [reflexivity|]. split; [exact Hm|]. split; [vm_compute; reflexivity|].
  intros [_ H].
  assert (He : globAnyMatch (RT := Demo.runtime) "[,c.go" "/a/b/c.go" = Ok true).
  { apply H. right. left. exact Hm. }
  vm_compute in He. discriminate He.
Qed.

(** ** Runs on the demo tree *)

Lemma ascending_ok : range_ok Demo.ascending.
Proof. intros m. reflexivity. Qed.

Lemma descending_ok : range_ok Demo.descending.
Proof. intros m. unfold Demo.descending. symmetry. apply Permutation_rev. Qed.

(** Directory [foobar] has a rules file of its own and is no
    subdirectory of [foo], yet it inherits the rules of [foo], whose name
    is a prefix of its own, ahead of its own rules. *)
Lemma discoverRules_inherits_by_prefix_witness :
  strings_HasPrefix "foobar" "foo" = true /\
  packageRules Siblings.afterFoo !! "foo" = Some Demo.fooRules /\
  deserializeRules (RT := Siblings.runtime) "foobar/PROFANITY" =
    Ok Siblings.foobarRules /\
  fst (discoverRules (RT := Siblings.runtime) Demo.descending "foobar"
         Siblings.afterFoo) = Ok (Demo.fooRules ++ Siblings.foobarRules) /\
  exists pre mid,
    fst (discoverRules (RT := Siblings.runtime) Demo.descending "foobar"
           Siblings.afterFoo) =
    Ok (pre ++ Demo.fooRules ++ mid ++ Siblings.foobarRules).
Proof.
  split; [reflexivity|]. split; [vm_compute; reflexivity|].
  split; [reflexivity|]. split; [vm_compute; reflexivity|].
  apply (proj2 (proj2 (discoverRules_inherits_by_prefix (RT := Siblings.runtime)
                         Demo.descending "foobar" Siblings.afterFoo
                         Siblings.foobarRules descending_ok
                         (or_introl (conj eq_refl eq_refl))))
           "foo" Demo.fooRules).
  - vm_compute. reflexivity.
  - reflexivity.
  - discriminate.
Defined.

(** C2.  The code departs from it.  The tree has a rules file at its
    root, directory [docs] is not the root and has no rules file, and
    [docs] is resolved, as the walk does, before any file of the root
    directory other than the rules file itself is visited: no rule is
    resolved for it, not the root's rules, and the TODO in [docs/x.go]
    goes unreported; the same rules are resolved for [pkg], which the walk
    reaches after [main.go], and the TODO in [pkg/y.go] is reported. *)
Lemma root_rules_missed_before_root_is_resolved :
  @os_Stat Demo.runtime (Demo.rulesPath ".") = true /\
  deserializeRules (RT := Demo.runtime) (Demo.rulesPath ".") = Ok Demo.rootRules /\
  @os_Stat Demo.runtime (Demo.rulesPath "docs") = false /\
  fst (discoverRules (RT := Demo.runtime) Demo.ascending "docs" initial) = Ok [] /\
  take 2 Demo.visits =
    [(Demo.ascending, "PROFANITY"); (Demo.ascending, "docs/x.go")] /\
  fst (walk (RT := Demo.runtime) (take 2 Demo.visits) initial) = Return None /\
  ~ (exists rest,
       fst (discoverRules (RT := Demo.runtime) Demo.ascending "docs" initial) =
       Ok (Demo.rootRules ++ rest)) /\
  violates (RT := Demo.runtime) (withFile "PROFANITY" Demo.noTodo)
    "package docs // TODO: write me" /\
  fst (discoverRules (RT := Demo.runtime) Demo.ascending "pkg" Demo.afterRoot) =
    Ok Demo.rootRules /\
  fst (walk (RT := Demo.runtime) Demo.visits initial) =
    Return (Some (violation "pkg/y.go" ("contains: " +:+ dquote +:+ "TODO" +:+ dquote)
                    (withFile "PROFANITY" Demo.noTodo))).
Proof.
  split; [reflexivity|]. split; [reflexivity|]. split; [reflexivity|].
  split; [vm_compute; reflexivity|]. split; [reflexivity|].
  split; [vm_compute; reflexivity|]. split.
  - intros [rest H]. vm_compute in H. discriminate H.
  - split; [eexists; vm_compute; reflexivity|].
    split; vm_compute; reflexivity.
Qed.

(** Directory [pkg] is resolved after [main.go] has been visited and gets
    the rules of the root. *)
Lemma discoverRules_root_rules_first_witness :
  exists rest,
    discoverRules (RT := Demo.runtime) Demo.ascending "pkg" Demo.afterRoot =
      (Ok (Demo.rootRules ++ rest),
       mkState (realizedRules Demo.afterRoot) (packageRules Demo.afterRoot)
         ("pkg" :: loaded Demo.afterRoot)).
Proof.
  apply (discoverRules_root_rules_first (RT := Demo.runtime)
           Demo.ascending "pkg" Demo.afterRoot Demo.rootRules).
  - discriminate.
  - reflexivity.
  - vm_compute. reflexivity.
Defined.

(** The walk resolves [foo] on reaching [foo/a.go]; looking [foo] up
    again after [foo/readme.md] and [foobar/b.go], under another map order,
    returns the same rules and changes nothing. *)
Lemma getRules_memoized_witness :
  getRules (RT := Demo.runtime) Demo.descending "foo" Demo.afterFoobar =
    (Ok Demo.fooRules, Demo.afterFoobar).
Proof.
  apply (proj1 (proj2 (proj2 getRules_memoized))
           Demo.runtime Demo.runtime Demo.runtime
           Demo.ascending "foo" Demo.afterDocs Demo.fooRules _ eq_refl
           (take 2 (drop 4 Demo.visits)) Demo.descending).
Defined.

(** A rule with contains [TODO] and a regex that does not compile. *)
Lemma Apply_dispatch_witness :
  Apply (RT := Demo.runtime) Demo.todoAndBadRegex "a TODO here" =
  Apply (RT := Demo.runtime) (withoutRegex Demo.todoAndBadRegex) "a TODO here".
Proof.
  apply (proj2 (proj2 (proj2 (Apply_dispatch (RT := Demo.runtime)
                                Demo.todoAndBadRegex "a TODO here"))));
    reflexivity.
Defined.

(** Three rules on [docs/x.go]: the first reports nothing, the second is
    violated, the third would panic if it were applied. *)
Lemma Evaluate_fail_fast_witness :
  Evaluate (RT := Demo.runtime) ([Demo.noFixme] ++ Demo.noTodo :: [Demo.badRegex])
    "docs/x.go" "package docs // TODO: write me" =
  Return (Some (violation "docs/x.go"
                  ("contains: " +:+ dquote +:+ "TODO" +:+ dquote) Demo.noTodo)).
Proof.
  apply (proj2 (Evaluate_fail_fast (RT := Demo.runtime) "docs/x.go"
                  "package docs // TODO: write me") [Demo.noFixme] Demo.noTodo).
  - constructor; [|constructor]. right. repeat split.
  - split; reflexivity.
  - reflexivity.
Defined.

(** A rule that only carries a message, applied and met in the loop. *)
Lemma unset_rule_fails_when_applied_witness :
  Apply (RT := Demo.runtime) Demo.messageOnly "package main" =
    Return (Some "no rule set") /\
  Evaluate (RT := Demo.runtime) ([Demo.noFixme] ++ Demo.messageOnly :: [Demo.noTodo])
    "main.go" "package main" =
    Return (Some (violation "main.go" "no rule set" Demo.messageOnly)).
Proof.
  pose proof (unset_rule_fails_when_applied (RT := Demo.runtime) Demo.messageOnly
                eq_refl eq_refl eq_refl) as (Happly & Hloop & _).
  split.
  - apply Happly.
  - apply Hloop.
    + constructor; [|constructor]. right. repeat split.
    + split; reflexivity.
Defined.

(** Directory [docs], looked up first in the walk. *)
Lemma absent_rules_file_is_no_error_witness :
  fst (localRules (RT := Demo.runtime) "docs" initial) = Ok [] /\
  fst (getRules (RT := Demo.runtime) Demo.ascending "docs" initial) = Ok [].
Proof.
  split.
  - apply (proj1 (absent_rules_file_is_no_error (RT := Demo.runtime)
                    Demo.ascending "docs" initial eq_refl)).
  - reflexivity.
Defined.

(** The filter [[] fails on any file, and a rule whose expression is an
    open parenthesis panics when it is applied. *)
Lemma malformed_patterns_are_fatal_witness :
  globAnyMatch (RT := Demo.runtime) "[" "docs/x.go" = Err Unix.ErrBadPattern /\
  Evaluate (RT := Demo.runtime) ([] ++ Demo.badRegex :: [Demo.noTodo])
    "main.go" "package main" =
    Panic "regexp: Compile(`(`): error parsing regexp: missing closing ): `(`".
Proof.
  split.
  - apply (proj1 (proj2 (malformed_patterns_are_fatal (RT := Demo.runtime)))
             "[" "docs/x.go" [] "[" []).
    + reflexivity.
    + constructor.
    + left. reflexivity.
  - apply (proj1 (proj2 (proj2 (proj2 (malformed_patterns_are_fatal
                                         (RT := Demo.runtime)))))
             [] Demo.badRegex [Demo.noTodo] "main.go" "package main"
             "error parsing regexp: missing closing ): `(`").
    + constructor.
    + split; reflexivity.
    + reflexivity.
    + reflexivity.
    + reflexivity.
    + reflexivity.
Defined.

(** C9 as stated fails: the pattern [z*[] is malformed, and
    [filepath.Match] reports it so on the name [z.go]; on [main.go] the
    match fails at the [z], before the bracket is looked at, and the answer
    is a mismatch without error.  The one rule of the tree includes by
    that pattern: it is passed over for [main.go], whose TODO it would
    report, and the scan ends with status 0. *)
Lemma malformed_glob_passes_as_mismatch :
  Unix.Match "z*[" "z.go" = Err Unix.ErrBadPattern /\
  malformedGlob (RT := Silent.runtime) "z*[" /\
  Unix.Match "z*[" "main.go" = Ok false /\
  globAnyMatch (RT := Silent.runtime) "z*[" "main.go" = Ok false /\
  fst (getRules (RT := Silent.runtime) Demo.ascending "." initial) =
    Ok [withFile "PROFANITY" Demo.todoBehindBadGlob] /\
  violates (RT := Silent.runtime) (withFile "PROFANITY" Demo.todoBehindBadGlob)
    "package main // TODO: flags" /\
  Silent.visits = [(Demo.ascending, "PROFANITY"); (Demo.ascending, "main.go")] /\
  fst (walk (RT := Silent.runtime) Silent.visits initial) = Return None /\
  main (RT := Silent.runtime) Silent.visits = 0 /\
  ~ (forall pattern file,
       malformedGlob (RT := Silent.runtime) pattern ->
       globAnyMatch (RT := Silent.runtime) pattern file <> Ok false).
Proof.
  assert (Hm : malformedGlob (RT := Silent.runtime) "z*[")
    by (exists "z.go", Unix.ErrBadPattern; vm_compute; reflexivity).
  split; [vm_compute; reflexivity|]. split; [exact Hm|].
  split; [vm_compute; reflexivity|]. split; [vm_compute; reflexivity|].
  split; [vm_compute; reflexivity|].
  split; [eexists; vm_compute; reflexivity|].
  split; [reflexivity|]. split; [vm_compute; reflexivity|].
  split; [vm_compute; reflexivity|].
  intros H. apply (H "z*[" "main.go" Hm). vm_compute. reflexivity.
Qed.

(** The rule of the root has neither filter set. *)
Lemma unset_filters_decide_without_glob_witness :
  ShouldInclude (RT := Demo.runtime) Demo.noTodo "docs/x.go" = Ok true /\
  ShouldExclude (RT := Demo.runtime) Demo.noTodo "docs/x.go" = Ok false.
Proof.
  split.
  - apply (proj1 (unset_filters_decide_without_glob (RT := Demo.runtime)
                    Demo.noTodo "docs/x.go")). reflexivity.
  - apply (proj2 (unset_filters_decide_without_glob (RT := Demo.runtime)
                    Demo.noTodo "docs/x.go")). reflexivity.
Defined.

(** The whole walk: the TODO of [docs/x.go] passes, the one of [pkg/y.go]
    is reported under the rule of the root, and the process exits with
    status 1. *)
Example demo_walk :
  fst (walk (RT := Demo.runtime) Demo.visits initial) =
    Return (Some (violation "pkg/y.go" ("contains: " +:+ dquote +:+ "TODO" +:+ dquote)
                    (withFile "PROFANITY" Demo.noTodo))) /\
  loaded (snd (walk (RT := Demo.runtime) Demo.visits initial)) =
    ["pkg"; "."; "foobar"; "foo"; "docs"] /\
  main (RT := Demo.runtime) Demo.visits = 1.
Proof. vm_compute. repeat split. Qed.

(** * Further properties of the linter *)

Section MoreProperties.
Context {RT : Runtime}.

(** ** The loop over the rules *)

Lemma ShouldInclude_false (r : Rule) (file : string) :
  ShouldInclude r file = Ok false ->
  nonempty (Rule.Include r) = true /\ globAnyMatch (Rule.Include r) file = Ok false.
Proof.
  unfold ShouldInclude. destruct (Rule.Include r) as [|c s]; [discriminate|].
  intros H. split; [reflexivity | exact H].
Qed.

Lemma ShouldExclude_true (r : Rule) (file : string) :
  ShouldExclude r file = Ok true ->
  nonempty (Rule.Exclude r) = true /\ globAnyMatch (Rule.Exclude r) file = Ok true.
Proof.
  unfold ShouldExclude. destruct (Rule.Exclude r) as [|c s]; [discriminate|].
  intros H. split; [reflexivity | exact H].
Qed.

Lemma Evaluate_passes_harmless (rules : list Rule) (file contents : string) :
  Evaluate rules file contents = Return None ->
  Forall (harmless file contents) rules.
Proof.
  induction rules as [|r rules IH]; simpl; [constructor|].
  destruct (ShouldInclude r file) as [[|]|e] eqn:Hi; try discriminate.
  - destruct (ShouldExclude r file) as [[|]|e] eqn:He; try discriminate.
    + intros H. constructor; [|apply IH; exact H].
      left. right. split; [exact Hi | apply ShouldExclude_true; exact He].
    + destruct (Apply r contents) as [[err|]|v] eqn:Ha; try discriminate.
      intros H. constructor; [|apply IH; exact H].
      right. repeat split; assumption.
  - intros H. constructor; [|apply IH; exact H].
    left. left. apply ShouldInclude_false; exact Hi.
Qed.

Lemma Evaluate_harmless_passes (rules : list Rule) (file contents : string) :
  Forall (harmless file contents) rules ->
  Evaluate rules file contents = Return None.
Proof.
  intros H. rewrite <- (app_nil_r rules). rewrite Evaluate_past by assumption.
  reflexivity.
Qed.

(** X1. A file passes the loop over its rules exactly when every rule is
    either passed over by its filters or applied without a violation: a
    filter error, a violation or a panic of any rule of the sequence, in
    whatever position, keeps the file from passing. *)
Theorem Evaluate_passes_iff (rules : list Rule) (file contents : string) :
  Evaluate rules file contents = Return None <->
  Forall (harmless file contents) rules.
Proof.
  split.
  - apply Evaluate_passes_harmless.
  - apply Evaluate_harmless_passes.
Qed.

Lemma harmless_Permutation (rules1 rules2 : list Rule) (file contents : string) :
  rules1 ≡ₚ rules2 ->
  Forall (harmless file contents) rules1 -> Forall (harmless file contents) rules2.
Proof.
  intros Hp H. rewrite Forall_forall in *. intros r Hr.
  apply H. rewrite Hp. exact Hr.
Qed.

Lemma Evaluate_passes_Permutation (rules1 rules2 : list Rule)
    (file contents : string) :
  rules1 ≡ₚ rules2 ->
  (Evaluate rules1 file contents = Return None <->
   Evaluate rules2 file contents = Return None).
Proof.
  intros Hp. split; intros H%Evaluate_passes_harmless;
    apply Evaluate_harmless_passes.
  - apply (harmless_Permutation rules1 rules2); assumption.
  - apply (harmless_Permutation rules2 rules1); [symmetry|]; assumption.
Qed.

(** ** The walk *)

(** X2. Walking one list of files after another is walking the first and,
    if no file of it stopped the walk, going on with the second from the
    state reached; when a file of the first list stops the walk, the
    second list is not looked at. *)
Theorem walk_app (visits1 visits2 : list (RangeOrder * string)) (st : State) :
  walk (visits1 ++ visits2) st =
  match walk visits1 st with
  | (Return None, st1) => walk visits2 st1
  | stop => stop
  end.
Proof.
  revert st. induction visits1 as [|[ord file] visits1 IH]; intros st; simpl.
  - reflexivity.
  - destruct (walkFn ord file st) as [[[e|]|v] st']; [reflexivity | apply IH | reflexivity].
Qed.

(** X19. Evaluating one sequence of rules after another is evaluating the
    first and, if the file passed it, the second: what stops the loop in
    the first sequence, a filter error, a violation or a panic, is the
    outcome, and the second sequence is not looked at. *)
Theorem Evaluate_app (rules1 rules2 : list Rule) (file contents : string) :
  Evaluate (rules1 ++ rules2) file contents =
  match Evaluate rules1 file contents with
  | Return None => Evaluate rules2 file contents
  | stop => stop
  end.
Proof.
  induction rules1 as [|r rules1 IH]; simpl; [reflexivity|].
  destruct (ShouldInclude r file) as [[|]|e]; [|exact IH|reflexivity].
  destruct (ShouldExclude r file) as [[|]|e]; [exact IH| |reflexivity].
  destruct (Apply r contents) as [[err|]|v]; [reflexivity | exact IH | reflexivity].
Qed.

(** ** Glob filters *)

(** X3. [globAnyMatch] fails exactly when some pattern of the filter is
    reported malformed at the first attempt made on it, or at the second
    after the first did not match, and all attempts on the patterns before
    it did not match; the error is the one of that attempt. *)
Theorem globAnyMatch_error_iff (filter file : string) (e : error) :
  globAnyMatch filter file = Err e <->
  exists pre part post,
    strings_Split filter ","%char = pre ++ part :: post /\
    Forall (cleanMiss file) pre /\
    breaks file part e.
Proof.
  unfold globAnyMatch. generalize (strings_Split filter ","%char) as parts.
  intros parts. split.
  - induction parts as [|part parts IH]; simpl; [discriminate|].
    destruct (filepath_Match (strings_TrimSpace part) file) as [[|]|e1] eqn:H1;
      try discriminate.
    + destruct (filepath_Match (strings_TrimSpace part) (filepath_Base file))
        as [[|]|e2] eqn:H2; try discriminate.
      * intros (pre & part' & post & -> & Hpre & Hb)%IH.
        exists (part :: pre), part', post.
        split; [reflexivity|]. split; [|exact Hb].
        constructor; [split; assumption | exact Hpre].
      * intros [= ->]. exists [], part, parts.
        split; [reflexivity|]. split; [constructor|]. right. split; assumption.
    + intros [= ->]. exists [], part, parts.
      split; [reflexivity|]. split; [constructor|]. left. exact H1.
  - intros (pre & part & post & -> & Hpre & Hb).
    rewrite globAnyMatch_parts_skip by assumption.
    apply globAnyMatch_parts_break; assumption.
Qed.

(** ** The resolver *)

Lemma localRules_cases (d : string) (st : State) :
  (os_Stat (filepath_Join d rulesFile) = false /\
   localRules d st =
     (Ok [], mkState (realizedRules st) (packageRules st) (d :: loaded st))) \/
  (os_Stat (filepath_Join d rulesFile) = true /\
   exists e,
     deserializeRules (filepath_Join d rulesFile) = Err e /\
     localRules d st =
       (Err e, mkState (realizedRules st) (packageRules st) (d :: loaded st))) \/
  (os_Stat (filepath_Join d rulesFile) = true /\
   exists rules,
     deserializeRules (filepath_Join d rulesFile) = Ok rules /\
     localRules d st =
       (Ok rules,
        mkState (realizedRules st) (<[d := rules]> (packageRules st))
          (d :: loaded st))).
Proof.
  unfold localRules. destruct (os_Stat _); simpl.
  - destruct (deserializeRules _) as [rules|e]; eauto 7.
  - left. split; reflexivity.
Qed.

Lemma inherit_provenance (d : string) (rules : list Rule)
    (entry : string * list Rule) (r : Rule) :
  In r (inherit d rules entry) ->
  In r rules \/
  (strings_HasPrefix d (fst entry) = true /\ fst entry <> d /\ In r (snd entry)).
Proof.
  destruct entry as [key inheritedRules]. unfold inherit. simpl.
  destruct (strings_HasPrefix d key) eqn:Hp; simpl; [|auto].
  destruct (String.eqb key d) eqn:He; simpl; [auto|].
  apply String.eqb_neq in He.
  intros [H|H]%in_app_or; auto.
Qed.

Lemma inherit_fold_provenance (d : string) (entries : list (string * list Rule))
    (rules : list Rule) (r : Rule) :
  In r (fold_left (inherit d) entries rules) ->
  In r rules \/
  exists K rulesK,
    In (K, rulesK) entries /\ strings_HasPrefix d K = true /\ K <> d /\ In r rulesK.
Proof.
  revert rules. induction entries as [|entry entries IH]; intros rules; simpl.
  - auto.
  - intros [H|(K & rulesK & Hin & Hrest)]%IH.
    + apply inherit_provenance in H as [H|(Hp & Hne & Hr)]; [auto|].
      right. exists (fst entry), (snd entry).
      destruct entry; simpl in *. auto.
    + right. exists K, rulesK. auto.
Qed.

Lemma resolved_sources (ord : RangeOrder) (d : string)
    (index : gmap string (list Rule)) (local : list Rule) (r : Rule) :
  range_ok ord ->
  In r (match index !! "." with
        | Some rootRules =>
            if negb (String.eqb d ".")
            then rootRules ++ fold_left (inherit d) (ord index) local
            else fold_left (inherit d) (ord index) local
        | None => fold_left (inherit d) (ord index) local
        end) ->
  In r local \/
  exists K rulesK,
    index !! K = Some rulesK /\
    K <> d /\
    (strings_HasPrefix d K = true \/ K = ".") /\
    In r rulesK.
Proof.
  intros Hord Hr.
  assert (Hfold : In r (fold_left (inherit d) (ord index) local) ->
                  In r local \/
                  exists K rulesK,
                    index !! K = Some rulesK /\ K <> d /\
                    (strings_HasPrefix d K = true \/ K = ".") /\ In r rulesK).
  { intros [H|(K & rulesK & Hin & Hp & Hne & HrK)]%inherit_fold_provenance; [auto|].
    right. exists K, rulesK. repeat split; auto.
    apply elem_of_map_to_list. rewrite <- (Hord index).
    apply list_elem_of_In. exact Hin. }
  destruct (index !! ".") as [rootRules|] eqn:Hroot; [|auto].
  destruct (String.eqb d ".") eqn:He; simpl in Hr; [auto|].
  apply String.eqb_neq in He.
  apply in_app_or in Hr as [Hr|Hr]; [|auto].
  right. exists ".", rootRules. repeat split; auto.
Qed.

(** X4. Every rule of a resolved sequence is a local rule of the directory
    or a rule registered in the rule index under another key, one that is a
    prefix of the directory's path as a string or is the root: resolution
    never picks up rules of a directory that is neither. *)
Theorem discoverRules_provenance (ord : RangeOrder) (d : string)
    (st st' : State) (local rules : list Rule) :
  range_ok ord ->
  localRules d st = (Ok local, st') ->
  fst (discoverRules ord d st) = Ok rules ->
  forall r, In r rules ->
    In r local \/
    exists K rulesK,
      packageRules st !! K = Some rulesK /\
      K <> d /\
      (strings_HasPrefix d K = true \/ K = ".") /\
      In r rulesK.
Proof.
  intros Hord Hl. rewrite (discoverRules_loaded ord d st st' local Hl). simpl.
  intros [= <-] r Hr.
  destruct (resolved_sources ord d (packageRules st') local r Hord Hr)
    as [Hloc|(K & rulesK & HK & Hne & Hp & HrK)]; [left; exact Hloc|].
  right. exists K, rulesK. repeat split; try assumption.
  rewrite <- (localRules_index d st st' local Hl K Hne). exact HK.
Qed.

Lemma inherit_Permutation (d : string) (entry : string * list Rule)
    (rules rules' : list Rule) :
  rules ≡ₚ rules' -> inherit d rules entry ≡ₚ inherit d rules' entry.
Proof.
  intros H. destruct entry as [key inheritedRules]. unfold inherit.
  destruct (_ && _); [rewrite H|]; auto.
Qed.

Lemma inherit_swap (d : string) (x y : string * list Rule) (rules : list Rule) :
  inherit d (inherit d rules x) y ≡ₚ inherit d (inherit d rules y) x.
Proof.
  destruct x as [kx rx], y as [ky ry]. unfold inherit.
  destruct (strings_HasPrefix d kx && _), (strings_HasPrefix d ky && _);
    try reflexivity.
  apply Permutation_app_swap_app.
Qed.

Lemma inherit_fold_init (d : string) (entries : list (string * list Rule))
    (rules rules' : list Rule) :
  rules ≡ₚ rules' ->
  fold_left (inherit d) entries rules ≡ₚ fold_left (inherit d) entries rules'.
Proof.
  revert rules rules'. induction entries as [|entry entries IH];
    intros rules rules' H; simpl; [exact H|].
  apply IH, inherit_Permutation, H.
Qed.

Lemma inherit_fold_Permutation (d : string)
    (entries1 entries2 : list (string * list Rule)) (rules : list Rule) :
  entries1 ≡ₚ entries2 ->
  fold_left (inherit d) entries1 rules ≡ₚ fold_left (inherit d) entries2 rules.
Proof.
  intros H. revert rules.
  induction H as [|x l1 l2 _ IH|x y l|l1 l2 l3 _ IH1 _ IH2]; intros rules; simpl.
  - reflexivity.
  - apply IH.
  - apply inherit_fold_init, inherit_swap.
  - rewrite IH1. apply IH2.
Qed.

(** X5. The order in which the map range enumerates the rule index only
    permutes the inherited part of the resolved sequence: under any two
    orders the sequences end with the same local rules and the rules
    before them are the same up to their order. *)
Theorem discoverRules_order (ord1 ord2 : RangeOrder) (d : string)
    (st st' : State) (local : list Rule) :
  range_ok ord1 ->
  range_ok ord2 ->
  localRules d st = (Ok local, st') ->
  exists inherited1 inherited2,
    discoverRules ord1 d st = (Ok (inherited1 ++ local), st') /\
    discoverRules ord2 d st = (Ok (inherited2 ++ local), st') /\
    inherited1 ≡ₚ inherited2.
Proof.
  intros H1 H2 Hl.
  rewrite !(discoverRules_loaded _ d st st' local Hl).
  destruct (inherit_fold_suffix d (ord1 (packageRules st')) local) as [i1 E1].
  destruct (inherit_fold_suffix d (ord2 (packageRules st')) local) as [i2 E2].
  assert (Hp : i1 ≡ₚ i2).
  { apply (Permutation_app_inv_r local). rewrite <- E1, <- E2.
    apply inherit_fold_Permutation. rewrite (H1 _), (H2 _). reflexivity. }
  rewrite E1, E2.
  destruct (packageRules st' !! ".") as [rootRules|].
  - destruct (negb (String.eqb d ".")).
    + exists (rootRules ++ i1), (rootRules ++ i2).
      rewrite <- !app_assoc. repeat split. rewrite Hp. reflexivity.
    + exists i1, i2. repeat split. exact Hp.
  - exists i1, i2. repeat split. exact Hp.
Qed.

(** X6. A directory whose name starts with a dot gets the rules of the root
    twice: once as the rules of a key that is a prefix of its path, and
    once more, at the front, as the rules of the root. *)
Theorem discoverRules_dot_directory (ord : RangeOrder) (d : string)
    (st : State) (rootRules : list Rule) :
  range_ok ord ->
  d <> "." ->
  strings_HasPrefix d "." = true ->
  os_Stat (filepath_Join d rulesFile) = false ->
  packageRules st !! "." = Some rootRules ->
  exists pre mid,
    fst (discoverRules ord d st) = Ok (rootRules ++ pre ++ rootRules ++ mid).
Proof.
  intros Hord Hne Hp Hs Hroot.
  rewrite (discoverRules_loaded ord d st _ [] (localRules_absent d st Hs)).
  simpl. rewrite Hroot.
  assert (Hin : In (".", rootRules) (ord (packageRules st))).
  { apply list_elem_of_In. rewrite (Hord (packageRules st)).
    apply elem_of_map_to_list. exact Hroot. }
  destruct (inherit_fold_entry d _ [] "." rootRules Hin Hp (not_eq_sym Hne))
    as (pre & mid & ->).
  apply String.eqb_neq in Hne. rewrite Hne. simpl.
  exists pre, mid. rewrite app_nil_r. reflexivity.
Qed.

(** ** The cache *)

(** X7. A lookup that fails has found the rules file of the directory and
    could not read or parse it, the error being the one of
    [deserializeRules]; it leaves the cache and the rule index as they
    were, so the failure is not cached: a repeated lookup enters the loader
    again and fails the same way. *)
Theorem getRules_error_not_cached (ord : RangeOrder) (d : string)
    (st st' : State) (e : error) :
  getRules ord d st = (Err e, st') ->
  os_Stat (filepath_Join d rulesFile) = true /\
  deserializeRules (filepath_Join d rulesFile) = Err e /\
  realizedRules st' = realizedRules st /\
  packageRules st' = packageRules st /\
  loaded st' = d :: loaded st /\
  forall ord',
    fst (getRules ord' d st') = Err e /\
    loaded (snd (getRules ord' d st')) = d :: d :: loaded st.
Proof.
  unfold getRules, discoverRules.
  destruct (realizedRules st !! d) as [cached|] eqn:Hc; [discriminate|].
  destruct (localRules_cases d st)
    as [[Hs Hl]|[[Hs (e' & Hd & Hl)]|[Hs (rules & Hd & Hl)]]];
    rewrite Hl; try discriminate.
  intros [= -> <-]. simpl. repeat split; try assumption.
  - unfold getRules, discoverRules. simpl. rewrite Hc.
    unfold localRules. simpl. rewrite Hs, Hd. reflexivity.
  - unfold getRules, discoverRules. simpl. rewrite Hc.
    unfold localRules. simpl. rewrite Hs, Hd. reflexivity.
Qed.

(** ** Invariants of the walk *)

Lemma getRules_cases (ord : RangeOrder) (d : string) (st : State) :
  (exists rules,
     realizedRules st !! d = Some rules /\ getRules ord d st = (Ok rules, st)) \/
  (realizedRules st !! d = None /\
   ((exists e,
       getRules ord d st =
         (Err e, mkState (realizedRules st) (packageRules st) (d :: loaded st))) \/
    (exists rules,
       fst (discoverRules ord d st) = Ok rules /\
       os_Stat (filepath_Join d rulesFile) = false /\
       getRules ord d st =
         (Ok rules,
          mkState (<[d := rules]> (realizedRules st)) (packageRules st)
            (d :: loaded st))) \/
    (exists local inherited,
       fst (discoverRules ord d st) = Ok (inherited ++ local) /\
       localRules d st =
         (Ok local,
          mkState (realizedRules st) (<[d := local]> (packageRules st))
            (d :: loaded st)) /\
       deserializeRules (filepath_Join d rulesFile) = Ok local /\
       getRules ord d st =
         (Ok (inherited ++ local),
          mkState (<[d := inherited ++ local]> (realizedRules st))
            (<[d := local]> (packageRules st)) (d :: loaded st))))).
Proof.
  unfold getRules.
  destruct (realizedRules st !! d) as [cached|] eqn:Hc; [left; eauto|].
  right. split; [reflexivity|].
  destruct (localRules_cases d st)
    as [[Hs Hl]|[[Hs (e & Hd & Hl)]|[Hs (local & Hd & Hl)]]].
  - right. left.
    rewrite (discoverRules_loaded ord d st _ [] Hl). simpl. eauto.
  - left. unfold discoverRules. rewrite Hl. eauto.
  - right. right.
    destruct (discoverRules_root_prefix ord d st _ local Hl) as [pre Hdisc].
    destruct (inherit_fold_suffix d
                (ord (<[d := local]> (packageRules st))) local) as [inh Hf].
    simpl in Hdisc. rewrite Hf, app_assoc in Hdisc. rewrite Hdisc. simpl.
    exists local, (pre ++ inh). auto.
Qed.

Lemma walk_invariant (Q : RangeOrder -> Prop) (P : State -> Prop) :
  (forall ord d st, Q ord -> P st -> P (snd (getRules ord d st))) ->
  forall visits st,
    Forall (fun v => Q (fst v)) visits -> P st -> P (snd (walk visits st)).
Proof.
  intros Hstep visits. induction visits as [|[ord file] visits IH];
    intros st Hq HP; simpl; [exact HP|].
  inversion Hq as [|? ? Hord Hq']; subst. simpl in Hord.
  assert (HP' : P (snd (walkFn ord file st))).
  { unfold walkFn.
    destruct (if nonempty include then _ else _) as [[|]|?]; simpl; auto.
    destruct (if nonempty exclude then _ else _) as [[|]|?]; simpl; auto.
    destruct (filepath_Match _ _) as [[|]|?]; simpl; auto.
    pose proof (Hstep ord (filepath_Dir file) st Hord HP) as H.
    destruct (getRules ord (filepath_Dir file) st) as [[rules|e] st']; simpl in *.
    - destruct (ioutil_ReadFile file); exact H.
    - exact H. }
  destruct (walkFn ord file st) as [[[e|]|v] st']; simpl in *; auto.
Qed.

Lemma any_order (visits : list (RangeOrder * string)) :
  Forall (fun v => (fun _ : RangeOrder => True) (fst v)) visits.
Proof. apply Forall_forall. intros v _. exact I. Qed.

Lemma coherent_initial : coherent initial.
Proof. intros d local H. simpl in H. rewrite lookup_empty in H. discriminate. Qed.

Lemma getRules_coherent (ord : RangeOrder) (d : string) (st : State) :
  coherent st -> coherent (snd (getRules ord d st)).
Proof.
  intros Hco.
  destruct (getRules_cases ord d st)
    as [(rules & _ & ->)|[Hmiss [[e ->]|[(rules & _ & _ & ->)|(local & inh & _ & _ & _ & ->)]]]];
    simpl; try exact Hco.
  - intros K localK HK. simpl in *.
    destruct (Hco K localK HK) as [inhK HrK].
    exists inhK. rewrite lookup_insert_ne by congruence. exact HrK.
  - intros K localK HK. simpl in *.
    destruct (decide (d = K)) as [<-|Hne].
    + rewrite lookup_insert_eq in HK. injection HK as <-.
      exists inh. apply lookup_insert_eq.
    + rewrite lookup_insert_ne in HK by assumption.
      destruct (Hco K localK HK) as [inhK HrK].
      exists inhK. rewrite lookup_insert_ne by assumption. exact HrK.
Qed.

Lemma walk_keeps_coherent (visits : list (RangeOrder * string)) (st : State) :
  coherent st -> coherent (snd (walk visits st)).
Proof.
  apply (walk_invariant (fun _ => True) coherent).
  - intros ord d st' _. apply getRules_coherent.
  - apply any_order.
Qed.

(** X8. At every point of a walk, whatever its outcome, each directory
    that has rules in the rule index also has a cached sequence, and the
    cached sequence ends with exactly the rules registered for the
    directory. *)
Theorem walk_coherent (visits : list (RangeOrder * string)) :
  coherent (snd (walk visits initial)).
Proof.
  apply walk_keeps_coherent. intros d local H. simpl in H.
  rewrite lookup_empty in H. discriminate.
Qed.

Lemma getRules_index_kept (ord : RangeOrder) (d : string) (st : State)
    (K : string) (rules : list Rule) :
  coherent st ->
  packageRules st !! K = Some rules ->
  packageRules (snd (getRules ord d st)) !! K = Some rules.
Proof.
  intros Hco HK.
  destruct (getRules_cases ord d st)
    as [(cached & _ & ->)|[Hmiss [[e ->]|[(found & _ & _ & ->)|(local & inh & _ & _ & _ & ->)]]]];
    simpl; try exact HK.
  rewrite lookup_insert_ne; [exact HK|].
  intros <-. destruct (Hco d rules HK) as [inhK HrK]. congruence.
Qed.

(** X9. The rule index only grows during a walk: the rules registered
    under a key at some point of the walk are still registered under it,
    unchanged, at every later point. *)
Theorem walk_index_grows (visits1 visits2 : list (RangeOrder * string))
    (K : string) (rules : list Rule) :
  packageRules (snd (walk visits1 initial)) !! K = Some rules ->
  packageRules (snd (walk visits2 (snd (walk visits1 initial)))) !! K = Some rules.
Proof.
  intros HK.
  apply (walk_invariant (fun _ => True)
           (fun st => coherent st /\ packageRules st !! K = Some rules)).
  - intros ord d st _ [Hco Hst]. split.
    + apply getRules_coherent, Hco.
    + apply getRules_index_kept; assumption.
  - apply any_order.
  - split; [apply walk_keeps_coherent, coherent_initial | exact HK].
Qed.

Lemma deserializeRules_stamps (path : string) (rules : list Rule) (r : Rule) :
  deserializeRules path = Ok rules -> In r rules -> Rule.File r = path.
Proof.
  unfold deserializeRules.
  destruct (ioutil_ReadFile path) as [contents|e]; [|discriminate].
  destruct (yaml_Unmarshal contents) as [fileRules|e]; [|discriminate].
  intros [= <-] (fileRule & <- & _)%in_map_iff. reflexivity.
Qed.

Lemma getRules_traceable (ord : RangeOrder) (d : string) (st : State) :
  range_ok ord ->
  coherent st /\ stamped st /\ traceable st ->
  coherent (snd (getRules ord d st)) /\
  stamped (snd (getRules ord d st)) /\
  traceable (snd (getRules ord d st)).
Proof.
  intros Hord (Hco & Hst & Htr).
  split; [apply getRules_coherent, Hco|].
  destruct (getRules_cases ord d st)
    as [(cached & _ & ->)|[Hmiss [[e ->]|[(found & Hd & Hs & ->)|(local & inh & Hd & Hloc & Hl & ->)]]]];
    simpl in *; try (split; assumption).
  - split; [exact Hst|].
    intros d' rules r Hd' Hr. simpl in *.
    destruct (decide (d = d')) as [<-|Hne].
    + rewrite lookup_insert_eq in Hd'. injection Hd' as <-.
      rewrite (discoverRules_loaded ord d st _ [] (localRules_absent d st Hs)) in Hd.
      simpl in Hd. injection Hd as <-.
      destruct (resolved_sources ord d (packageRules st) [] r Hord Hr)
        as [[]|(K & rulesK & HK & _ & _ & HrK)].
      exists K, rulesK. repeat split; try assumption.
      apply (Hst K rulesK r HK HrK).
    + rewrite lookup_insert_ne in Hd' by assumption.
      apply (Htr d' rules r Hd' Hr).
  - assert (Hst' : stamped
              (mkState (<[d := inh ++ local]> (realizedRules st))
                 (<[d := local]> (packageRules st)) (d :: loaded st))).
    { intros K rulesK r HK HrK. simpl in HK.
      destruct (decide (d = K)) as [<-|Hne].
      - rewrite lookup_insert_eq in HK. injection HK as <-.
        apply (deserializeRules_stamps _ local r Hl HrK).
      - rewrite lookup_insert_ne in HK by assumption.
        apply (Hst K rulesK r HK HrK). }
    split; [exact Hst'|].
    assert (Hfresh : forall K rulesK,
               packageRules st !! K = Some rulesK -> K <> d).
    { intros K rulesK HK ->. destruct (Hco d rulesK HK) as [? ?]. congruence. }
    intros d' rules r Hd' Hr. simpl in *.
    destruct (decide (d = d')) as [<-|Hne].
    + rewrite lookup_insert_eq in Hd'. injection Hd' as <-.
      rewrite (discoverRules_loaded ord d st _ local Hloc) in Hd.
      simpl in Hd. injection Hd as Hd. rewrite <- Hd in Hr.
      destruct (resolved_sources ord d (<[d := local]> (packageRules st)) local r
                  Hord Hr)
        as [Hin|(K & rulesK & HK & _ & _ & HrK)].
      * exists d, local. rewrite lookup_insert_eq. repeat split; try assumption.
        apply (deserializeRules_stamps _ local r Hl Hin).
      * exists K, rulesK. repeat split; try assumption.
        apply (Hst' K rulesK r HK HrK).
    + rewrite lookup_insert_ne in Hd' by assumption.
      destruct (Htr d' rules r Hd' Hr) as (K & rulesK & HK & HrK & HF).
      exists K, rulesK. repeat split; try assumption.
      rewrite lookup_insert_ne; [exact HK|].
      apply not_eq_sym, (Hfresh K rulesK HK).
Qed.

Lemma Evaluate_reports (rules : list Rule) (file contents : string) (e : error) :
  Evaluate rules file contents = Return (Some e) ->
  (exists r,
     In r rules /\ (ShouldInclude r file = Err e \/ ShouldExclude r file = Err e)) \/
  (exists r err,
     In r rules /\ Apply r contents = Return (Some err) /\
     e = violation file err r).
Proof.
  induction rules as [|r rules IH]; simpl; [discriminate|].
  assert (Hrest : Evaluate rules file contents = Return (Some e) ->
            (exists r0,
               (r = r0 \/ In r0 rules) /\
               (ShouldInclude r0 file = Err e \/ ShouldExclude r0 file = Err e)) \/
            (exists r0 err,
               (r = r0 \/ In r0 rules) /\ Apply r0 contents = Return (Some err) /\
               e = violation file err r0)).
  { intros H. destruct (IH H) as [(r0 & Hin & Hf)|(r0 & err & Hin & Ha & He)];
      [left; exists r0 | right; exists r0, err]; auto. }
  destruct (ShouldInclude r file) as [[|]|e1] eqn:Hi.
  - destruct (ShouldExclude r file) as [[|]|e2] eqn:He.
    + exact Hrest.
    + destruct (Apply r contents) as [[err|]|v] eqn:Ha.
      * intros [= <-]. right. exists r, err. auto.
      * exact Hrest.
      * discriminate.
    + intros [= <-]. left. exists r. auto.
  - exact Hrest.
  - intros [= <-]. left. exists r. auto.
Qed.

Lemma violation_names_rules_file (file : string) (err : error) (r : Rule) :
  occurs (Rule.File r) (violation file err r).
Proof.
  unfold violation.
  repeat first [ apply occurs_here | apply occurs_append ].
Qed.

(** X10. At every point of a walk, every rule of every cached sequence is
    a rule of some entry of the rule index, and every rule of the index
    names, in its [File], the rules file of the directory it is registered
    under.  So when the rule loop, run on the sequence looked up for the
    next file, returns an error, that error is the error of an include or
    exclude filter of one of the rules, or it is the violation of a rule
    that is registered in the index under some key, and the text of the
    error contains the path of the rules file of that key. *)
Theorem walk_traceable (visits : list (RangeOrder * string)) :
  Forall (fun v => range_ok (fst v)) visits ->
  traceable (snd (walk visits initial)) /\
  stamped (snd (walk visits initial)) /\
  (forall ord file rules st' contents e,
     range_ok ord ->
     getRules ord (filepath_Dir file) (snd (walk visits initial)) = (Ok rules, st') ->
     Evaluate rules file contents = Return (Some e) ->
     (exists r,
        In r rules /\
        (ShouldInclude r file = Err e \/ ShouldExclude r file = Err e)) \/
     (exists r err K rulesK,
        In r rules /\
        Apply r contents = Return (Some err) /\
        e = violation file err r /\
        packageRules st' !! K = Some rulesK /\
        In r rulesK /\
        Rule.File r = filepath_Join K rulesFile /\
        occurs (filepath_Join K rulesFile) e)).
Proof.
  intros Hv.
  assert (H : coherent (snd (walk visits initial)) /\
              stamped (snd (walk visits initial)) /\
              traceable (snd (walk visits initial))).
  { apply (walk_invariant range_ok
             (fun st => coherent st /\ stamped st /\ traceable st)).
    - intros ord d st Hord. apply getRules_traceable, Hord.
    - exact Hv.
    - split; [apply coherent_initial|].
      split; intros ? ? ? H; simpl in H; rewrite lookup_empty in H; discriminate. }
  split; [apply H|]. split; [apply H|].
  intros ord file rules st' contents e Hord Hg He.
  destruct (getRules_traceable ord (filepath_Dir file) _ Hord H) as (_ & _ & Htr).
  rewrite Hg in Htr. simpl in Htr.
  pose proof (getRules_stored ord _ _ st' rules Hg) as Hc.
  destruct (Evaluate_reports rules file contents e He)
    as [Hf|(r & err & Hin & Ha & ->)]; [left; exact Hf|].
  destruct (Htr _ rules r Hc Hin) as (K & rulesK & HK & HrK & HF).
  right. exists r, err, K, rulesK. repeat split; try assumption.
  rewrite <- HF. apply violation_names_rules_file.
Qed.

(** ** Whole scans *)

Lemma range_empty (ord : RangeOrder) : range_ok ord -> ord ∅ = [].
Proof.
  intros Hord. pose proof (Hord ∅) as Hp. rewrite map_to_list_empty in Hp.
  apply Permutation_nil_r in Hp. exact Hp.
Qed.

Lemma main_passes (visits : list (RangeOrder * string)) :
  main visits = 0 <-> fst (walk visits initial) = Return None.
Proof.
  unfold main. destruct (fst (walk visits initial)) as [[e|]|v];
    split; intros H; try reflexivity; discriminate H.
Qed.

(** No rules were loaded and every cached sequence is empty. *)
Lemma walkFn_without_rules_files (ord : RangeOrder) (file : string) (st : State) :
  (forall d, os_Stat (filepath_Join d rulesFile) = false) ->
  range_ok ord ->
  readable file ->
  packageRules st = ∅ ->
  (forall d rules, realizedRules st !! d = Some rules -> rules = []) ->
  fst (walkFn ord file st) = Return None /\
  packageRules (snd (walkFn ord file st)) = ∅ /\
  (forall d rules,
     realizedRules (snd (walkFn ord file st)) !! d = Some rules -> rules = []).
Proof.
  intros Hno Hord ([b1 H1] & [b2 H2] & [b3 H3] & [contents H4]) Hidx Hcache.
  unfold walkFn. rewrite H1, H2, H3, H4.
  destruct b1; [|auto]. destruct b2; [auto|]. destruct b3; [auto|].
  destruct (realizedRules st !! filepath_Dir file) as [rules|] eqn:Hc.
  - rewrite (getRules_hit ord _ st rules Hc).
    rewrite (Hcache _ rules Hc). simpl. auto.
  - rewrite (getRules_miss ord _ st Hc).
    rewrite (discoverRules_loaded ord _ st _ [] (localRules_absent _ st (Hno _))).
    simpl. rewrite Hidx, lookup_empty, (range_empty ord Hord). simpl.
    split; [reflexivity|]. split; [reflexivity|].
    intros d rules Hd. destruct (decide (filepath_Dir file = d)) as [<-|Hne].
    + rewrite lookup_insert_eq in Hd. congruence.
    + rewrite lookup_insert_ne in Hd by assumption. apply (Hcache d rules Hd).
Qed.

(** X11. In a tree where no directory has a rules file, a scan whose
    files can be read and whose global filters are well formed visits every
    file, finds no violation whatever the files contain, and exits with
    status 0. *)
Theorem walk_without_rules_files (visits : list (RangeOrder * string)) :
  (forall d, os_Stat (filepath_Join d rulesFile) = false) ->
  Forall (fun v => range_ok (fst v) /\ readable (snd v)) visits ->
  fst (walk visits initial) = Return None /\ main visits = 0.
Proof.
  intros Hno Hv.
  assert (H : forall st,
             packageRules st = ∅ ->
             (forall d rules, realizedRules st !! d = Some rules -> rules = []) ->
             fst (walk visits st) = Return None).
  { induction Hv as [|[ord file] visits [Hord Hread] _ IH]; intros st Hidx Hcache;
      simpl; [reflexivity|].
    destruct (walkFn_without_rules_files ord file st Hno Hord Hread Hidx Hcache)
      as (Hout & Hidx' & Hcache').
    destruct (walkFn ord file st) as [out st']. simpl in *. subst out.
    apply IH; assumption. }
  assert (Hw : fst (walk visits initial) = Return None).
  { apply H; [reflexivity|]. intros d rules Hd. simpl in Hd.
    rewrite lookup_empty in Hd. discriminate. }
  split; [exact Hw | apply main_passes, Hw].
Qed.

Lemma localRules_frame (d : string) (st : State)
    (realized : gmap string (list Rule)) :
  localRules d (mkState realized (packageRules st) (loaded st)) =
  (fst (localRules d st),
   mkState realized (packageRules (snd (localRules d st)))
     (loaded (snd (localRules d st)))).
Proof.
  unfold localRules. simpl. destruct (os_Stat _); simpl; [|reflexivity].
  destruct (deserializeRules _); reflexivity.
Qed.

Lemma discoverRules_similar (ord1 ord2 : RangeOrder) (d : string)
    (st1 st2 : State) :
  range_ok ord1 ->
  range_ok ord2 ->
  similar st1 st2 ->
  similar (snd (discoverRules ord1 d st1)) (snd (discoverRules ord2 d st2)) /\
  ((exists e,
      fst (discoverRules ord1 d st1) = Err e /\
      fst (discoverRules ord2 d st2) = Err e) \/
   (exists rules1 rules2,
      fst (discoverRules ord1 d st1) = Ok rules1 /\
      fst (discoverRules ord2 d st2) = Ok rules2 /\
      rules1 ≡ₚ rules2)).
Proof.
  intros H1 H2 (Hp & Hl & Hr).
  pose proof (localRules_log d st1) as [Hlog1 Hreal1].
  assert (E : localRules d st2 =
              (fst (localRules d st1),
               mkState (realizedRules st2) (packageRules (snd (localRules d st1)))
                 (loaded (snd (localRules d st1))))).
  { rewrite <- localRules_frame, Hp, Hl. destruct st2; reflexivity. }
  unfold discoverRules. rewrite E.
  destruct (localRules d st1) as [[local|e] st1'] eqn:E1; simpl in *.
  - split; [split; [reflexivity|]; split; [reflexivity|]; rewrite Hreal1; exact Hr|].
    right. eexists. eexists. split; [reflexivity|]. split; [reflexivity|].
    assert (Hf : fold_left (inherit d) (ord1 (packageRules st1')) local ≡ₚ
                 fold_left (inherit d) (ord2 (packageRules st1')) local).
    { apply inherit_fold_Permutation. rewrite (H1 _), (H2 _). reflexivity. }
    destruct (packageRules st1' !! ".") as [rootRules|]; [|exact Hf].
    destruct (negb (String.eqb d ".")); [|exact Hf].
    rewrite Hf. reflexivity.
  - split; [split; [reflexivity|]; split; [reflexivity|]; rewrite Hreal1; exact Hr|].
    left. eauto.
Qed.

Lemma getRules_similar (ord1 ord2 : RangeOrder) (d : string) (st1 st2 : State) :
  range_ok ord1 ->
  range_ok ord2 ->
  similar st1 st2 ->
  similar (snd (getRules ord1 d st1)) (snd (getRules ord2 d st2)) /\
  ((exists e,
      fst (getRules ord1 d st1) = Err e /\ fst (getRules ord2 d st2) = Err e) \/
   (exists rules1 rules2,
      fst (getRules ord1 d st1) = Ok rules1 /\
      fst (getRules ord2 d st2) = Ok rules2 /\
      rules1 ≡ₚ rules2)).
Proof.
  intros H1 H2 Hsim. pose proof Hsim as (Hp & Hl & Hr).
  unfold getRules. pose proof (Hr d) as Hd.
  destruct Hd as [rules1 rules2 Hperm|]; simpl.
  - split; [exact Hsim|]. right. eauto.
  - destruct (discoverRules_similar ord1 ord2 d st1 st2 H1 H2 Hsim)
      as [(Hp' & Hl' & Hr') [(e & E1 & E2)|(rules1 & rules2 & E1 & E2 & Hperm)]].
    + destruct (discoverRules ord1 d st1) as [res1 st1'],
               (discoverRules ord2 d st2) as [res2 st2'].
      simpl in *. subst res1 res2. simpl.
      split; [repeat split; assumption|]. left. eauto.
    + destruct (discoverRules ord1 d st1) as [res1 st1'],
               (discoverRules ord2 d st2) as [res2 st2'].
      simpl in *. subst res1 res2. simpl.
      split; [|right; eauto].
      split; [exact Hp'|]. split; [exact Hl'|].
      intros d'. simpl. destruct (decide (d = d')) as [<-|Hne].
      * rewrite !lookup_insert_eq. constructor. exact Hperm.
      * rewrite !lookup_insert_ne by assumption. apply Hr'.
Qed.

Lemma walkFn_similar (ord1 ord2 : RangeOrder) (file : string) (st1 st2 : State) :
  range_ok ord1 ->
  range_ok ord2 ->
  similar st1 st2 ->
  similar (snd (walkFn ord1 file st1)) (snd (walkFn ord2 file st2)) /\
  (fst (walkFn ord1 file st1) = Return None <->
   fst (walkFn ord2 file st2) = Return None).
Proof.
  intros H1 H2 Hsim. unfold walkFn.
  destruct (if nonempty include then _ else _) as [[|]|?]; simpl;
    [|split; [exact Hsim | reflexivity]..].
  destruct (if nonempty exclude then _ else _) as [[|]|?]; simpl;
    [split; [exact Hsim | reflexivity]| |split; [exact Hsim | reflexivity]].
  destruct (filepath_Match _ _) as [[|]|?]; simpl;
    [split; [exact Hsim | reflexivity]| |split; [exact Hsim | reflexivity]].
  destruct (getRules_similar ord1 ord2 (filepath_Dir file) st1 st2 H1 H2 Hsim)
    as [Hsim' [(e & E1 & E2)|(rules1 & rules2 & E1 & E2 & Hperm)]];
    destruct (getRules ord1 (filepath_Dir file) st1) as [res1 st1'],
             (getRules ord2 (filepath_Dir file) st2) as [res2 st2'];
    simpl in *; subst res1 res2.
  - split; [exact Hsim'|]. simpl. split; discriminate.
  - destruct (ioutil_ReadFile file) as [contents|e]; simpl.
    + split; [exact Hsim'|]. apply Evaluate_passes_Permutation, Hperm.
    + split; [exact Hsim'|]. split; discriminate.
Qed.

Lemma walk_similar (visits1 visits2 : list (RangeOrder * string))
    (st1 st2 : State) :
  sameFiles visits1 visits2 ->
  similar st1 st2 ->
  (fst (walk visits1 st1) = Return None <-> fst (walk visits2 st2) = Return None).
Proof.
  intros Hv. revert st1 st2.
  induction Hv as [|[ord1 file1] [ord2 file2] visits1 visits2 (Hf & H1 & H2) _ IH];
    intros st1 st2 Hsim; simpl; [reflexivity|].
  simpl in Hf, H1, H2. subst file2.
  destruct (walkFn_similar ord1 ord2 file1 st1 st2 H1 H2 Hsim) as [Hsim' Hout].
  destruct (walkFn ord1 file1 st1) as [[[e1|]|v1] st1'],
           (walkFn ord2 file1 st2) as [[[e2|]|v2] st2']; simpl in *;
    try (split; discriminate);
    try (destruct Hout as [Ha Hb];
         first [specialize (Ha eq_refl) | specialize (Hb eq_refl)]; discriminate).
  apply IH, Hsim'.
Qed.

Lemma similar_refl (st : State) : similar st st.
Proof.
  split; [reflexivity|]. split; [reflexivity|].
  intros d. destruct (realizedRules st !! d); constructor. reflexivity.
Qed.

(** X12. Whether a scan succeeds does not depend on the orders in which
    the map ranges enumerate the rule index: two walks over the same files
    exit with status 0 together, and fail together (possibly at different
    rules of the file that fails). *)
Theorem main_order_independent (visits1 visits2 : list (RangeOrder * string)) :
  sameFiles visits1 visits2 ->
  (main visits1 = 0 <-> main visits2 = 0).
Proof.
  intros Hv. rewrite !main_passes.
  apply walk_similar; [exact Hv | apply similar_refl].
Qed.

End MoreProperties.

(** * The arguments after the double dash *)

Section ArgsTrailerProperties.
Variable TrimSpace : string -> string.

Let token (arg : string) : Prop := TrimSpace arg = "--".

Lemma findIndex_cases (args : list string) (index : nat) :
  (Forall (fun a => ~ token a) args /\ sh.findIndex TrimSpace args index = 0) \/
  (exists pre dd rest,
     args = pre ++ dd :: rest /\
     Forall (fun a => ~ token a) pre /\
     token dd /\
     sh.findIndex TrimSpace args index = index + length pre).
Proof.
  revert index. induction args as [|arg args IH]; intros index; simpl.
  - left. split; [constructor | reflexivity].
  - destruct (String.eqb (TrimSpace arg) "--") eqn:He.
    + right. exists [], arg, args. apply String.eqb_eq in He.
      repeat split; [constructor | exact He | simpl; lia].
    + apply String.eqb_neq in He.
      destruct (IH (S index)) as [[Hall ->]|(pre & dd & rest & -> & Hpre & Hdd & ->)].
      * left. split; [constructor; assumption | reflexivity].
      * right. exists (arg :: pre), dd, rest.
        repeat split; [constructor; assumption | exact Hdd | simpl; lia].
Qed.

Lemma token_split_unique (pre1 pre2 : list string) (d1 d2 : string)
    (rest1 rest2 : list string) :
  pre1 ++ d1 :: rest1 = pre2 ++ d2 :: rest2 ->
  Forall (fun a => ~ token a) pre1 -> token d1 ->
  Forall (fun a => ~ token a) pre2 -> token d2 ->
  pre1 = pre2 /\ rest1 = rest2.
Proof.
  revert pre2. induction pre1 as [|a pre1 IH]; intros [|b pre2] E H1 T1 H2 T2;
    simpl in E.
  - injection E as _ <-. auto.
  - injection E as <- _. inversion H2; contradiction.
  - injection E as -> _. inversion H1; contradiction.
  - injection E as <- E. inversion H1; inversion H2; subst.
    destruct (IH pre2 E) as [<- <-]; auto.
Qed.

Lemma drop_past (pre : list string) (dd : string) (rest : list string) :
  drop (S (length pre)) (pre ++ dd :: rest) = rest.
Proof. induction pre as [|a pre IH]; simpl; [apply drop_0 | exact IH]. Qed.

Lemma findIndex_first (pre : list string) (dd : string) (rest : list string)
    (index : nat) :
  Forall (fun a => ~ token a) pre ->
  token dd ->
  sh.findIndex TrimSpace (pre ++ dd :: rest) index = index + length pre.
Proof.
  intros Hpre Hdd.
  destruct (findIndex_cases (pre ++ dd :: rest) index)
    as [[Hall _]|(pre' & dd' & rest' & E & Hpre' & Hdd' & ->)].
  - apply Forall_app in Hall as [_ Hall]. inversion Hall; contradiction.
  - destruct (token_split_unique _ _ _ _ _ _ E Hpre Hdd Hpre' Hdd') as [<- _].
    reflexivity.
Qed.

Lemma ArgsTrailer_no_token (args : list string) :
  Forall (fun a => ~ token a) args ->
  sh.ArgsTrailer TrimSpace args =
  sh.Failed (sh.mkException sh.ErrFlagsNoTrailer
               ("args: " +:+ sh.strings_Join args " ")).
Proof.
  intros Hall. unfold sh.ArgsTrailer.
  destruct (findIndex_cases args 0)
    as [[_ ->]|(pre & dd & rest & -> & _ & Hdd & _)]; [reflexivity|].
  apply Forall_app in Hall as [_ Hall]. inversion Hall; contradiction.
Qed.

Lemma ArgsTrailer_first_token (pre : list string) (dd : string)
    (rest : list string) :
  Forall (fun a => ~ token a) pre ->
  token dd ->
  sh.ArgsTrailer TrimSpace (pre ++ dd :: rest) =
  match pre, rest with
  | [], _ =>
      sh.Failed (sh.mkException sh.ErrFlagsNoTrailer
                   ("args: " +:+ sh.strings_Join (pre ++ dd :: rest) " "))
  | _ :: _, [] =>
      sh.Failed (sh.mkException sh.ErrFlagsNoTrailer
                   "cannot be the last flag argument")
  | _ :: _, _ :: _ => sh.Trailer rest
  end.
Proof.
  intros Hpre Hdd. unfold sh.ArgsTrailer.
  rewrite (findIndex_first pre dd rest 0 Hpre Hdd).
  destruct pre as [|a pre]; [reflexivity|].
  change (0 + length (a :: pre) =? 0) with false. cbv iota.
  destruct (Z.eqb_spec (Z.of_nat (0 + length (a :: pre)))
              (Z.of_nat (length ((a :: pre) ++ dd :: rest)) - 1)) as [E|E];
    rewrite length_app in E; cbn [length Nat.add] in E.
  - destruct rest as [|r rest]; [reflexivity | cbn [length] in E; lia].
  - destruct rest as [|r rest]; [exfalso; apply E; cbn [length]; lia|].
    change (0 + length (a :: pre)) with (length (a :: pre)).
    rewrite drop_past. reflexivity.
Qed.

(** X13. [ArgsTrailer] returns a trailer exactly when the first argument
    that is the double-dash token (after trimming) is neither the first
    nor the last argument, and the trailer is then everything after that
    token: it is never empty, and it may itself contain further tokens. *)
Theorem ArgsTrailer_ok_iff (args rest : list string) :
  sh.ArgsTrailer TrimSpace args = sh.Trailer rest <->
  exists pre dd,
    args = pre ++ dd :: rest /\
    pre <> [] /\
    rest <> [] /\
    TrimSpace dd = "--" /\
    Forall (fun a => TrimSpace a <> "--") pre.
Proof.
  split.
  - destruct (findIndex_cases args 0)
      as [[Hall _]|(pre & dd & rest' & -> & Hpre & Hdd & _)].
    + rewrite (ArgsTrailer_no_token args Hall). discriminate.
    + rewrite (ArgsTrailer_first_token pre dd rest' Hpre Hdd).
      destruct pre as [|a pre]; [discriminate|].
      destruct rest' as [|r rest']; [discriminate|].
      intros [= <-]. exists (a :: pre), dd.
      repeat split; try assumption; discriminate.
  - intros (pre & dd & -> & Hne & Hrest & Hdd & Hpre).
    rewrite (ArgsTrailer_first_token pre dd rest Hpre Hdd).
    destruct pre; [contradiction|]. destruct rest; [contradiction|]. reflexivity.
Qed.

(** X14. [ArgsTrailer] fails, always with the class [ErrFlagsNoTrailer], in
    two ways: with the arguments in the message when no argument is the
    token or when the very first argument is (whatever follows it, further
    tokens included), and with "cannot be the last flag argument" when the
    first token is the last argument and not the first. *)
Theorem ArgsTrailer_failed_iff (args : list string) (ex : sh.Exception) :
  sh.ArgsTrailer TrimSpace args = sh.Failed ex <->
  (ex = sh.mkException sh.ErrFlagsNoTrailer
          ("args: " +:+ sh.strings_Join args " ") /\
   (Forall (fun a => TrimSpace a <> "--") args \/
    exists dd rest, args = dd :: rest /\ TrimSpace dd = "--")) \/
  (ex = sh.mkException sh.ErrFlagsNoTrailer "cannot be the last flag argument" /\
   exists pre dd,
     args = pre ++ [dd] /\
     pre <> [] /\
     TrimSpace dd = "--" /\
     Forall (fun a => TrimSpace a <> "--") pre).
Proof.
  split.
  - destruct (findIndex_cases args 0)
      as [[Hall _]|(pre & dd & rest & -> & Hpre & Hdd & _)].
    + rewrite (ArgsTrailer_no_token args Hall). intros [= <-]. left. auto.
    + rewrite (ArgsTrailer_first_token pre dd rest Hpre Hdd).
      destruct pre as [|a pre].
      * intros [= <-]. left. split; [reflexivity|]. right. eauto.
      * destruct rest as [|r rest]; [|discriminate].
        intros [= <-]. right. split; [reflexivity|].
        exists (a :: pre), dd. repeat split; try assumption; discriminate.
  - intros [[-> [Hall|(dd & rest & -> & Hdd)]]|[-> (pre & dd & -> & Hne & Hdd & Hpre)]].
    + apply ArgsTrailer_no_token, Hall.
    + apply (ArgsTrailer_first_token [] dd rest); [constructor | exact Hdd].
    + rewrite (ArgsTrailer_first_token pre dd [] Hpre Hdd).
      destruct pre; [contradiction | reflexivity].
Qed.

End ArgsTrailerProperties.

(** * The counters of the health-check sidecar *)

Section HealthzProperties.
Import Healthz.

Lemma incrementVarUnsafe_lookup (key : string) (vars : State) (k : string) :
  incrementVarUnsafe key vars !! k =
  if decide (key = k) then
    match vars !! key with
    | Some (Int64 n) => Some (Int64 (wrap64 (n + 1)))
    | Some v => Some v
    | None => Some (Int64 1)
    end
  else vars !! k.
Proof.
  unfold incrementVarUnsafe.
  destruct (vars !! key) as [[n|t|v]|] eqn:Hv;
    destruct (decide (key = k)) as [<-|Hne];
    rewrite ?lookup_insert_eq, ?lookup_insert_ne by assumption;
    rewrite ?Hv; reflexivity.
Qed.

Lemma incrementVarUnsafe_comm (k1 k2 : string) (vars : State) :
  incrementVarUnsafe k1 (incrementVarUnsafe k2 vars) =
  incrementVarUnsafe k2 (incrementVarUnsafe k1 vars).
Proof.
  destruct (decide (k1 = k2)) as [->|Hne]; [reflexivity|].
  apply map_eq. intros k. rewrite !incrementVarUnsafe_lookup.
  repeat match goal with
  | |- context [decide (?a = ?b)] =>
      destruct (decide (a = b)); subst; try congruence
  end.
Qed.

(** Every listener is a sequence of increments of counters. *)
Lemma listen_increments (e : Event) :
  exists keys,
    (forall key, In key keys -> In key counters) /\
    forall vars, listen vars e = foldr incrementVarUnsafe vars keys.
Proof.
  assert (Hin : forall keys,
             forallb (fun key => if in_dec string_dec key counters then true else false)
               keys = true ->
             forall key, In key keys -> In key counters).
  { intros keys H key Hkey. rewrite forallb_forall in H.
    specialize (H key Hkey). destruct (in_dec string_dec key counters);
      [assumption | discriminate]. }
  destruct e as [c|[| | |name]]; simpl.
  - unfold httpResponseListener.
    destruct (StatusInternalServerError <=? c)%Z;
      [exists [VarzRequests5xx; VarzRequests]; split; [apply Hin|]; reflexivity|].
    destruct (StatusBadRequest <=? c)%Z;
      [exists [VarzRequests4xx; VarzRequests]; split; [apply Hin|]; reflexivity|].
    destruct (StatusMultipleChoices <=? c)%Z;
      [exists [VarzRequests3xx; VarzRequests]; split; [apply Hin|]; reflexivity|].
    exists [VarzRequests2xx; VarzRequests]; split; [apply Hin|]; reflexivity.
  - exists []. split; [apply Hin|]; reflexivity.
  - exists [VarzErrors]. split; [apply Hin|]; reflexivity.
  - exists [VarzFatals]. split; [apply Hin|]; reflexivity.
  - exists []. split; [apply Hin|]; reflexivity.
Qed.

Lemma increments_comm (key : string) (keys : list string) (vars : State) :
  foldr incrementVarUnsafe (incrementVarUnsafe key vars) keys =
  incrementVarUnsafe key (foldr incrementVarUnsafe vars keys).
Proof.
  induction keys as [|k keys IH]; simpl; [reflexivity|].
  rewrite IH. apply incrementVarUnsafe_comm.
Qed.

Lemma listen_comm (e1 e2 : Event) (vars : State) :
  listen (listen vars e1) e2 = listen (listen vars e2) e1.
Proof.
  destruct (listen_increments e1) as (keys1 & _ & H1).
  destruct (listen_increments e2) as (keys2 & _ & H2).
  rewrite !H1, !H2. clear H1 H2.
  induction keys1 as [|k keys1 IH]; simpl; [reflexivity|].
  rewrite increments_comm, IH. reflexivity.
Qed.

(** X15. The vars the listeners leave behind do not depend on the order
    in which the events reach them: the same events in any order give the
    same vars, from any vars to start with. *)
Theorem listenAll_order_independent (events1 events2 : list Event) (vars : State) :
  events1 ≡ₚ events2 ->
  listenAll events1 vars = listenAll events2 vars.
Proof.
  unfold listenAll. intros H. revert vars.
  induction H as [|e l1 l2 _ IH|e1 e2 l|l1 l2 l3 _ IH1 _ IH2]; intros vars; simpl.
  - reflexivity.
  - apply IH.
  - rewrite listen_comm. reflexivity.
  - rewrite IH1. apply IH2.
Qed.

Lemma listen_other (e : Event) (vars : State) (k : string) :
  ~ In k counters -> listen vars e !! k = vars !! k.
Proof.
  intros Hk. destruct (listen_increments e) as (keys & Hkeys & H).
  rewrite H. clear H. induction keys as [|key keys IH]; simpl; [reflexivity|].
  rewrite incrementVarUnsafe_lookup.
  destruct (decide (key = k)) as [<-|Hne].
  - exfalso. apply Hk, Hkeys. left. reflexivity.
  - apply IH. intros key' Hkey'. apply Hkeys. right. exact Hkey'.
Qed.

(** X16. The listeners change no var other than the seven counters: a
    var under any other key, the start time among them, is the same after
    any events as before. *)
Theorem listenAll_other_vars (events : list Event) (vars : State) (k : string) :
  ~ In k counters -> listenAll events vars !! k = vars !! k.
Proof.
  intros Hk. unfold listenAll. revert vars.
  induction events as [|e events IH]; intros vars; simpl; [reflexivity|].
  rewrite IH. apply listen_other, Hk.
Qed.

Lemma wrap64_succ (n : Z) : wrap64 (wrap64 n + 1) = wrap64 (n + 1).
Proof.
  unfold wrap64.
  replace ((n + 2 ^ 63) mod 2 ^ 64 - 2 ^ 63 + 1 + 2 ^ 63)%Z
    with ((n + 2 ^ 63) mod 2 ^ 64 + 1)%Z by lia.
  rewrite Z.add_mod_idemp_l by lia.
  replace (n + 2 ^ 63 + 1)%Z with (n + 1 + 2 ^ 63)%Z by lia. reflexivity.
Qed.

Lemma wrap64_small (n : Z) :
  (- 2 ^ 63 <= n < 2 ^ 63)%Z -> wrap64 n = n.
Proof. intros H. unfold wrap64. rewrite Z.mod_small by lia. lia. Qed.

Lemma count_cons (f : Event -> bool) (e : Event) (events : list Event) :
  count f (e :: events) = ((if f e then 1 else 0) + count f events)%Z.
Proof.
  unfold count. simpl. destruct (f e); [|reflexivity].
  simpl length. lia.
Qed.

Lemma counted_keys :
  counted VarzRequests = isResponse (fun _ => true) /\
  counted VarzRequests2xx = isResponse is2xx /\
  counted VarzRequests3xx = isResponse is3xx /\
  counted VarzRequests4xx = isResponse is4xx /\
  counted VarzRequests5xx = isResponse is5xx /\
  counted VarzErrors = isError /\
  counted VarzFatals = isFatal.
Proof. repeat split. Qed.

Ltac counted_known :=
  destruct counted_keys as (Hc0 & Hc2 & Hc3 & Hc4 & Hc5 & Hce & Hcf);
  rewrite ?Hc0, ?Hc2, ?Hc3, ?Hc4, ?Hc5, ?Hce, ?Hcf;
  clear Hc0 Hc2 Hc3 Hc4 Hc5 Hce Hcf.

Ltac leb_known c :=
  repeat match goal with
  | |- context [(?n <=? c)%Z] =>
      first [ rewrite (proj2 (Z.leb_le n c)) by lia
            | rewrite (proj2 (Z.leb_gt n c)) by lia ]
  end.

Ltac decide_keys :=
  repeat match goal with
  | |- context [decide (?a = ?b)] =>
      let H := fresh in
      destruct (decide (a = b)) as [H|H];
      [try discriminate H | try (exfalso; apply H; reflexivity)]
  end.

Lemma counted_step (vars : State) (e : Event) (k : string) (n : Z) :
  In k counters ->
  vars !! k = Some (Int64 n) ->
  listen vars e !! k = Some (Int64 (if counted k e then wrap64 (n + 1) else n)).
Proof.
  intros Hk Hv.
  assert (Hkeys : k = VarzRequests \/ k = VarzRequests2xx \/ k = VarzRequests3xx \/
                  k = VarzRequests4xx \/ k = VarzRequests5xx \/ k = VarzErrors \/
                  k = VarzFatals) by (simpl in Hk; intuition auto).
  destruct e as [c|flag]; simpl.
  - unfold httpResponseListener, StatusInternalServerError, StatusBadRequest,
      StatusMultipleChoices.
    destruct (Z.leb_spec 500 c) as [H5|H5];
      [|destruct (Z.leb_spec 400 c) as [H4|H4];
        [|destruct (Z.leb_spec 300 c) as [H3|H3]]];
      rewrite !incrementVarUnsafe_lookup;
      destruct Hkeys as [->|[->|[->|[->|[->|[->| ->]]]]]];
      decide_keys; rewrite ?Hv; counted_known;
      unfold isResponse, isError, isFatal, is2xx, is3xx, is4xx, is5xx;
      leb_known c; reflexivity.
  - destruct flag as [| | |name]; simpl;
      rewrite ?incrementVarUnsafe_lookup;
      destruct Hkeys as [->|[->|[->|[->|[->|[->| ->]]]]]];
      decide_keys; rewrite ?Hv; counted_known; reflexivity.
Qed.

Lemma listenAll_counted (events : list Event) (vars : State) (k : string) (n : Z) :
  In k counters ->
  vars !! k = Some (Int64 (wrap64 n)) ->
  listenAll events vars !! k = Some (Int64 (wrap64 (n + count (counted k) events))).
Proof.
  intros Hk. unfold listenAll. revert vars n.
  induction events as [|e events IH]; intros vars n Hv; simpl.
  - rewrite Hv. unfold count. simpl. rewrite Z.add_0_r. reflexivity.
  - rewrite count_cons.
    pose proof (counted_step vars e k (wrap64 n) Hk Hv) as Hstep.
    destruct (counted k e).
    + rewrite wrap64_succ in Hstep. rewrite (IH _ (n + 1)%Z Hstep).
      rewrite Z.add_assoc. reflexivity.
    + rewrite (IH _ n Hstep). rewrite Z.add_0_l. reflexivity.
Qed.

Lemma count_classes (events : list Event) :
  count (counted VarzRequests) events =
  (count (counted VarzRequests2xx) events + count (counted VarzRequests3xx) events +
   count (counted VarzRequests4xx) events + count (counted VarzRequests5xx) events)%Z.
Proof.
  induction events as [|e events IH]; [reflexivity|].
  rewrite !count_cons, IH.
  assert (He : ((if counted VarzRequests e then 1 else 0) =
                (if counted VarzRequests2xx e then 1 else 0) +
                (if counted VarzRequests3xx e then 1 else 0) +
                (if counted VarzRequests4xx e then 1 else 0) +
                (if counted VarzRequests5xx e then 1 else 0))%Z).
  { counted_known. destruct e as [c|flag]; [|reflexivity].
    unfold isResponse, is2xx, is3xx, is4xx, is5xx.
    destruct (Z.leb_spec 500 c), (Z.leb_spec 400 c), (Z.leb_spec 300 c);
      simpl; lia. }
  lia.
Qed.

(** X17. After any events, starting from the vars of [NewHealthz], each of
    the seven counters holds the number of events it counts, as an [int64]:
    [http_requests] all responses; the four class counters the responses
    with status 500 and up, 400 to 499, 300 to 399, and anything below 300
    (informational and nonsensical codes land in [http_requests2xx]);
    [errors_total] and [fatals_total] the error events with those flags.
    [http_requests] is the sum of the four class counters, and a count below
    2^63 is held exactly. *)
Theorem listenAll_counts (events : list Event) :
  (forall k, In k counters ->
     listenAll events NewHealthz_vars !! k =
     Some (Int64 (wrap64 (count (counted k) events)))) /\
  count (counted VarzRequests) events =
    (count (counted VarzRequests2xx) events + count (counted VarzRequests3xx) events +
     count (counted VarzRequests4xx) events + count (counted VarzRequests5xx) events)%Z /\
  (forall k, (count (counted k) events < 2 ^ 63)%Z ->
     wrap64 (count (counted k) events) = count (counted k) events).
Proof.
  split; [|split].
  - intros k Hk.
    rewrite (listenAll_counted events NewHealthz_vars k 0 Hk); [reflexivity|].
    simpl in Hk.
    destruct Hk as [<-|[<-|[<-|[<-|[<-|[<-|[<-|[]]]]]]]]; reflexivity.
  - apply count_classes.
  - intros k Hk. apply wrap64_small. unfold count in *. lia.
Qed.

(** X18. Once [ensureListeners] has run, the start time it found or set
    stays: no event changes it, and a later call, at whatever time and
    after whatever events, changes nothing and registers no listener
    again. *)
Theorem ensureListeners_once (now1 now2 : Z) (log1 log2 : bool)
    (events : list Event) (vars : State) :
  let vars1 := fst (ensureListeners now1 log1 vars) in
  (vars !! VarzStarted = None -> vars1 !! VarzStarted = Some (Time now1)) /\
  listenAll events vars1 !! VarzStarted = vars1 !! VarzStarted /\
  ensureListeners now2 log2 (listenAll events vars1) = (listenAll events vars1, []).
Proof.
  intros vars1.
  assert (Hout : ~ In VarzStarted counters).
  { simpl. intros H. repeat destruct H as [H|H]; try discriminate H. exact H. }
  assert (Hset : vars1 !! VarzStarted <> None).
  { unfold vars1, ensureListeners.
    destruct (vars !! VarzStarted) eqn:Hv; simpl.
    - rewrite Hv. discriminate.
    - rewrite lookup_insert_eq. discriminate. }
  assert (Hkeep : listenAll events vars1 !! VarzStarted = vars1 !! VarzStarted).
  { unfold listenAll. generalize vars1 as v.
    induction events as [|e events IH]; intros v; simpl; [reflexivity|].
    rewrite IH. apply listen_other, Hout. }
  split; [|split].
  - intros Hv. unfold vars1, ensureListeners. rewrite Hv. simpl.
    apply lookup_insert_eq.
  - exact Hkeep.
  - unfold ensureListeners at 1. rewrite Hkeep.
    destruct (vars1 !! VarzStarted); [reflexivity | contradiction].
Qed.

End HealthzProperties.

(** * The var listing of the sidecar *)

Section VarzProperties.
Import Healthz.

#[local] Instance string_le_total : Total string_le.
Proof.
  intros x y. unfold string_le.
  destruct (String_as_OT.compare_spec x y) as [H|H|H].
  - left. discriminate.
  - left. discriminate.
  - right. unfold String_as_OT.lt in H. rewrite H. discriminate.
Qed.

#[local] Instance string_le_trans : Transitive string_le.
Proof.
  intros x y z. unfold string_le.
  destruct (String_as_OT.compare_spec x y) as [->|Hxy|Hxy]; [auto| |congruence].
  destruct (String_as_OT.compare_spec y z) as [<-|Hyz|Hyz]; [| |congruence].
  - intros _ _. unfold String_as_OT.lt in Hxy. rewrite Hxy. discriminate.
  - intros _ _.
    assert (H : String_as_OT.lt x z) by (etransitivity; eassumption).
    unfold String_as_OT.lt in H. rewrite H. discriminate.
Qed.

#[local] Instance string_le_antisym : AntiSymm (=) string_le.
Proof.
  intros x y. unfold string_le.
  destruct (String_as_OT.compare_spec x y) as [->|Hxy|Hxy]; [auto| |congruence].
  destruct (String_as_OT.compare_spec y x) as [->|Hyx|Hyx]; [auto| |congruence].
  intros _ _. exfalso.
  apply (irreflexivity String_as_OT.lt x). etransitivity; eassumption.
Qed.

Lemma sort_Strings_unique (keys1 keys2 : list string) :
  keys1 ≡ₚ keys2 -> sort_Strings keys1 = sort_Strings keys2.
Proof.
  intros H. unfold sort_Strings.
  apply (Sorted_unique string_le); try apply Sorted_merge_sort; try apply _.
  rewrite !merge_sort_Permutation. exact H.
Qed.

(** X20. The listing [varzHandler] writes does not depend on the order in
    which the map range enumerates the vars: after the status 200 and the
    content type it has one line per var, and the lines are in ascending
    order of their keys. *)
Theorem varzHandler_sorted (HeaderContentType ContentTypeText : string)
    (formatValue : option Any -> string) (order1 order2 : list string)
    (vars : State) :
  order1 ≡ₚ order2 ->
  varzHandler HeaderContentType ContentTypeText formatValue order1 vars =
  varzHandler HeaderContentType ContentTypeText formatValue order2 vars /\
  exists keys,
    keys ≡ₚ order1 /\
    Sorted string_le keys /\
    varzHandler HeaderContentType ContentTypeText formatValue order1 vars =
      WriteHeader 200 ::
      HeaderSet HeaderContentType ContentTypeText ::
      map (fun key =>
             Fprintf (key +:+ ": " +:+ formatValue (vars !! key) +:+ newline))
        keys.
Proof.
  intros H. split.
  - unfold varzHandler. rewrite (sort_Strings_unique order1 order2 H). reflexivity.
  - exists (sort_Strings order1). split; [apply merge_sort_Permutation|].
    split; [apply Sorted_merge_sort; apply _ | reflexivity].
Qed.

End VarzProperties.

(** * Runs on the demo tree, continued *)

(** The one rule resolved for [foobar] once [foo] is loaded is a rule of
    the index entry [foo]. *)
Lemma discoverRules_provenance_witness :
  In (withFile "foo/PROFANITY" Demo.needsLicense) [] \/
  exists K rulesK,
    packageRules Demo.afterFoo !! K = Some rulesK /\
    K <> "foobar" /\
    (strings_HasPrefix "foobar" K = true \/ K = ".") /\
    In (withFile "foo/PROFANITY" Demo.needsLicense) rulesK.
Proof.
  apply (discoverRules_provenance (RT := Demo.runtime) Demo.descending "foobar"
           Demo.afterFoo _ [] Demo.fooRules descending_ok eq_refl).
  - vm_compute. reflexivity.
  - left. reflexivity.
Defined.

(** A directory [foo/bar] resolved after the root and [foo], under the two
    orders. *)
Lemma discoverRules_order_witness :
  exists inherited1 inherited2,
    discoverRules (RT := Demo.runtime) Demo.ascending "foo/bar" Demo.afterRoot =
      (Ok (inherited1 ++ []),
       mkState (realizedRules Demo.afterRoot) (packageRules Demo.afterRoot)
         ("foo/bar" :: loaded Demo.afterRoot)) /\
    discoverRules (RT := Demo.runtime) Demo.descending "foo/bar" Demo.afterRoot =
      (Ok (inherited2 ++ []),
       mkState (realizedRules Demo.afterRoot) (packageRules Demo.afterRoot)
         ("foo/bar" :: loaded Demo.afterRoot)) /\
    inherited1 ≡ₚ inherited2.
Proof.
  apply (discoverRules_order (RT := Demo.runtime) Demo.ascending Demo.descending
           "foo/bar" Demo.afterRoot _ [] ascending_ok descending_ok).
  reflexivity.
Defined.

(** A directory [.github] resolved after the root. *)
Lemma discoverRules_dot_directory_witness :
  exists pre mid,
    fst (discoverRules (RT := Demo.runtime) Demo.ascending ".github" Demo.afterRoot) =
    Ok (Demo.rootRules ++ pre ++ Demo.rootRules ++ mid).
Proof.
  apply (discoverRules_dot_directory (RT := Demo.runtime) Demo.ascending ".github"
           Demo.afterRoot Demo.rootRules ascending_ok).
  - discriminate.
  - reflexivity.
  - reflexivity.
  - vm_compute. reflexivity.
Defined.

(** Looking up [vendor], whose rules file is not valid yaml, twice. *)
Lemma getRules_error_not_cached_witness :
  fst (getRules (RT := Demo.runtime) Demo.descending "vendor"
         (mkState (realizedRules Demo.afterRoot) (packageRules Demo.afterRoot)
            ("vendor" :: loaded Demo.afterRoot))) =
  Err "yaml: did not find expected node content".
Proof.
  apply (getRules_error_not_cached (RT := Demo.runtime) Demo.ascending "vendor"
           Demo.afterRoot _ "yaml: did not find expected node content").
  vm_compute. reflexivity.
Defined.

(** The rules of [foo] are still registered after the next two files. *)
Lemma walk_index_grows_witness :
  packageRules
    (snd (walk (RT := Demo.runtime) (take 2 (drop 5 Demo.visits))
            (snd (walk (RT := Demo.runtime) (take 5 Demo.visits) initial))))
    !! "foo" = Some Demo.fooRules.
Proof.
  apply (walk_index_grows (RT := Demo.runtime)).
  vm_compute. reflexivity.
Defined.

Lemma demo_orders_ok : Forall (fun v => range_ok (fst v)) Demo.visits.
Proof. repeat constructor; apply ascending_ok. Qed.

(** The rule the walk of the tree ends on, cached for [pkg], is a rule of
    the index and names the rules file of the root. *)
Lemma walk_traceable_witness :
  exists K rulesK,
    packageRules (snd (walk (RT := Demo.runtime) Demo.visits initial)) !! K =
      Some rulesK /\
    In (withFile "PROFANITY" Demo.noTodo) rulesK /\
    Rule.File (withFile "PROFANITY" Demo.noTodo) =
      @filepath_Join Demo.runtime K (@rulesFile Demo.runtime).
Proof.
  apply (proj1 (walk_traceable (RT := Demo.runtime) Demo.visits demo_orders_ok)
           "pkg" Demo.rootRules).
  - vm_compute. reflexivity.
  - left. reflexivity.
Defined.

(** No directory of the bare tree has a rules file. *)
Lemma Bare_no_rules_file (d : string) :
  Bare.Stat (Unix.Join d DefaultProfanityFile) = false.
Proof.
  unfold Unix.Join.
  destruct (Unix.isEmpty d || String.eqb d "."); [reflexivity|].
  destruct (String.eqb d "/") eqn:E;
    [apply String.eqb_eq in E; subst d; reflexivity|].
  assert (H : forall name,
             String.length name < 10 ->
             String.eqb name (d +:+ "/" +:+ DefaultProfanityFile) = false).
  { intros name Hn. apply String.eqb_neq. intros ->.
    rewrite !length_append in Hn. simpl in Hn. lia. }
  unfold Bare.Stat, Bare.files, Demo.find.
  rewrite !H by (simpl; lia). reflexivity.
Qed.

(** The files of the tree are there, its directories have no rules file,
    and the scan passes although two files mention TODO. *)
Lemma walk_without_rules_files_witness :
  @os_Stat Bare.runtime "docs/x.go" = true /\
  fst (walk (RT := Bare.runtime) Bare.visits initial) = Return None /\
  main (RT := Bare.runtime) Bare.visits = 0.
Proof.
  split; [reflexivity|].
  apply (walk_without_rules_files (RT := Bare.runtime) Bare.visits).
  - exact Bare_no_rules_file.
  - repeat constructor;
      first [ apply ascending_ok | apply descending_ok
            | eexists; vm_compute; reflexivity ].
Defined.

(** The walk of the tree with every map range descending instead. *)
Lemma main_order_independent_witness :
  main (RT := Demo.runtime) Demo.visits = 0 <->
  main (RT := Demo.runtime) (map (fun v => (Demo.descending, snd v)) Demo.visits) = 0.
Proof.
  apply (main_order_independent (RT := Demo.runtime)).
  repeat constructor; first [ apply ascending_ok | apply descending_ok ].
Defined.

(** * Runs of the sidecar *)

(** A response and an error, in either order. *)
Lemma listenAll_order_independent_witness :
  Healthz.listenAll
    [Healthz.HTTPResponse 404; Healthz.ErrorEvent Healthz.Error]
    Healthz.NewHealthz_vars =
  Healthz.listenAll
    [Healthz.ErrorEvent Healthz.Error; Healthz.HTTPResponse 404]
    Healthz.NewHealthz_vars.
Proof.
  apply listenAll_order_independent. apply perm_swap.
Defined.

(** The start time outlives a response and a fatal error. *)
Lemma listenAll_other_vars_witness :
  Healthz.listenAll
    [Healthz.HTTPResponse 200; Healthz.ErrorEvent Healthz.Fatal]
    (<[Healthz.VarzStarted := Healthz.Time 1540000000]> Healthz.NewHealthz_vars)
    !! Healthz.VarzStarted =
  (<[Healthz.VarzStarted := Healthz.Time 1540000000]> Healthz.NewHealthz_vars)
    !! Healthz.VarzStarted.
Proof.
  apply listenAll_other_vars.
  simpl. intros H. repeat destruct H as [H|H]; try discriminate H. exact H.
Defined.

(** Two vars, enumerated either way. *)
Lemma varzHandler_sorted_witness :
  Healthz.varzHandler "Content-Type" "text/plain; charset=utf-8" (fun _ => "0")
    ["http_requests"; "errors_total"] Healthz.NewHealthz_vars =
  Healthz.varzHandler "Content-Type" "text/plain; charset=utf-8" (fun _ => "0")
    ["errors_total"; "http_requests"] Healthz.NewHealthz_vars.
Proof.
  apply (varzHandler_sorted "Content-Type" "text/plain; charset=utf-8"
           (fun _ => "0") ["http_requests"; "errors_total"]
           ["errors_total"; "http_requests"] Healthz.NewHealthz_vars).
  apply perm_swap.
Defined.

(** A program name, a flag, the token and two arguments. *)
Example ArgsTrailer_example :
  sh.ArgsTrailer Unix.TrimSpace ["prog"; "-v"; " -- "; "ls"; "--"] =
    sh.Trailer ["ls"; "--"] /\
  sh.ArgsTrailer Unix.TrimSpace ["--"; "ls"; "--"; "x"] =
    sh.Failed (sh.mkException sh.ErrFlagsNoTrailer "args: -- ls -- x").
Proof. split; reflexivity. Qed.
